(** * Elevator System: the dispatch engine of [src/Elevator System/index.js]

    A shallow embedding of the classes [Request], [Elevator] and
    [ElevatorController] and of the demo driver [ElevatorSystem].

    Modelling decisions.
    - Floors, ids, capacities and passenger counts are JavaScript numbers
      holding integers; they are modelled as [Z].  Comparisons of numbers
      are exact.  A sum or difference that the program stores or measures
      is rounded to the 53 significant bits of a double ([double] below),
      as the language does; it is exact between -2^53 and 2^53.  The
      exponent range of doubles is not modelled: what depends on the value
      of a sum or difference is stated for numbers inside the exact
      range.
    - [console.log] is modelled as a list of [Event]s returned next to the
      new state, one constructor per message of the source.
    - [async] methods run to their next [await]; the state between two
      such points is what any other code can observe.  A suspended call of
      [processRequests] is kept as an [Activation]; the timers and the
      promise queue are abstracted to "some suspended activation is
      resumed next". *)

From stdpp Require Import base list numbers sorting sets.

Local Open Scope Z_scope.

(** ** [Direction] (lines 1-5) *)

Inductive Direction : Set := UP | DOWN | IDLE.

#[global] Instance Direction_eq_dec : EqDecision Direction.
Proof. solve_decision. Defined.

(** ** Numbers

    [double z] is the double nearest to the integer [z], ties going to the
    even significand: [z] itself up to 2^53 in absolute value, and beyond
    that the nearest multiple of the power of two that leaves 53 bits. *)

Definition double (z : Z) : Z :=
  let m := Z.abs z in
  if m <? 2 ^ 53 then z
  else
    let k := Z.log2 m - 52 in
    let q := m / 2 ^ k in
    let r := m mod 2 ^ k in
    let half := 2 ^ (k - 1) in
    let q' :=
      if r <? half then q
      else if half <? r then q + 1
      else if Z.even q then q else q + 1 in
    Z.sgn z * (q' * 2 ^ k).

#[global] Arguments double : simpl never.

(** The range in which sums and differences by one are exact: up to 2^53
    in absolute value; and the range in which also the difference of two
    numbers is: up to 2^52. *)
Definition exact (z : Z) : Prop :=
  -9007199254740992 ≤ z ≤ 9007199254740992.

Definition near (z : Z) : Prop :=
  -4503599627370496 ≤ z ≤ 4503599627370496.

(** ** [class Request] (lines 7-14) *)

Module Request.

Record t : Set := mk {
  sourceFloor : Z;
  destinationFloor : Z;
  direction : Direction
}.

(** [new Request(sourceFloor, destinationFloor)] *)
Definition new (sourceFloor destinationFloor : Z) : t :=
  {| sourceFloor := sourceFloor;
     destinationFloor := destinationFloor;
     direction := if decide (destinationFloor > sourceFloor) then UP else DOWN |}.

End Request.

#[global] Instance Request_eq_dec : EqDecision Request.t.
Proof. solve_decision. Defined.

(** ** Console output *)

Inductive Event : Set :=
| AtCapacity (id : Z)                 (* line 35 *)
| PickedUp (id floor : Z)             (* lines 74-76 *)
| DroppedOff (id floor : Z)           (* lines 81-83 *)
| Moving (id from to : Z)             (* lines 95-97 *)
| Arrived (id floor : Z)              (* line 108 *)
| NoAvailable.                        (* line 123 *)

#[global] Instance Event_eq_dec : EqDecision Event.
Proof. solve_decision. Defined.

(** ** [Array.prototype.sort]

    The sort of the language is stable, and with a consistent comparison
    function its result is the one stable ordering of the array; an
    insertion sort that puts an element in front of the entries it does not
    exceed computes that ordering.  [compareFn a b] is negative, zero or
    positive as in the source. *)

Section ArraySort.
Context {A : Type} (compareFn : A → A → Z).

Fixpoint sort_insert (x : A) (l : list A) : list A :=
  match l with
  | [] => [x]
  | y :: l' =>
      if decide (compareFn x y ≤ 0) then x :: y :: l'
      else y :: sort_insert x l'
  end.

Definition array_sort (l : list A) : list A := foldr sort_insert [] l.
End ArraySort.

(** ** [class Elevator] (lines 16-111) *)

Module Elevator.

Record t : Set := mk {
  id : Z;
  capacityLimit : Z;
  currentFloor : Z;
  direction : Direction;
  requests : list Request.t;
  passengers : Z;
  isMoving : bool;
  mutex : bool
}.

(** [new Elevator(id, capacityLimit)] (lines 17-26) *)
Definition new (id capacityLimit : Z) : t :=
  {| id := id; capacityLimit := capacityLimit; currentFloor := 0;
     direction := IDLE; requests := []; passengers := 0;
     isMoving := false; mutex := false |}.

(** Field assignments [this.f = v]. *)
Definition set_currentFloor (v : Z) (e : t) : t :=
  mk (id e) (capacityLimit e) v (direction e) (requests e) (passengers e)
     (isMoving e) (mutex e).
Definition set_direction (v : Direction) (e : t) : t :=
  mk (id e) (capacityLimit e) (currentFloor e) v (requests e) (passengers e)
     (isMoving e) (mutex e).
Definition set_requests (v : list Request.t) (e : t) : t :=
  mk (id e) (capacityLimit e) (currentFloor e) (direction e) v (passengers e)
     (isMoving e) (mutex e).
Definition set_passengers (v : Z) (e : t) : t :=
  mk (id e) (capacityLimit e) (currentFloor e) (direction e) (requests e) v
     (isMoving e) (mutex e).
Definition set_isMoving (v : bool) (e : t) : t :=
  mk (id e) (capacityLimit e) (currentFloor e) (direction e) (requests e)
     (passengers e) v (mutex e).
Definition set_mutex (v : bool) (e : t) : t :=
  mk (id e) (capacityLimit e) (currentFloor e) (direction e) (requests e)
     (passengers e) (isMoving e) v.

(** *** [optimizeRequests] (lines 51-62)

    The two comparison functions of lines 53 and 55.  The sort uses the
    sign of their result only, and rounding a difference keeps its sign,
    so the differences are left exact here. *)
Definition ascending (a b : Request.t) : Z :=
  Request.destinationFloor a - Request.destinationFloor b.
Definition descending (a b : Request.t) : Z :=
  Request.destinationFloor b - Request.destinationFloor a.

(** The method calls itself at line 59; [depth] bounds the nesting of
    calls and [None] says that the bound was hit.  [optimizeRequests_deep]
    below shows that a nesting of two already decides the outcome at every
    larger bound, so [None] from [optimizeRequests] is a recursion that
    never returns. *)
Fixpoint optimizeRequests_rec (depth : nat) (e : t) : option t :=
  match depth with
  | O => None
  | S depth' =>
      match direction e with
      | UP => Some (set_requests (array_sort ascending (requests e)) e)
      | DOWN => Some (set_requests (array_sort descending (requests e)) e)
      | IDLE =>
          match requests e with
          | [] => Some e
          | first :: _ =>
              optimizeRequests_rec depth'
                (set_direction (Request.direction first) e)
          end
      end
  end.

Definition optimizeRequests (e : t) : option t := optimizeRequests_rec 2 e.

(** What the engine does with a recursion that never returns: the call
    stack has room for [depth] nested calls, and the call that finds it
    full throws [RangeError].  The assignments made until then stay:
    [Overflows e] carries the object as the throw leaves it. *)
Inductive Completion : Set :=
| Returns (e : t)
| Overflows (e : t).

Fixpoint optimizeRequests_stack (depth : nat) (e : t) : Completion :=
  match depth with
  | O => Overflows e
  | S depth' =>
      match direction e with
      | UP => Returns (set_requests (array_sort ascending (requests e)) e)
      | DOWN => Returns (set_requests (array_sort descending (requests e)) e)
      | IDLE =>
          match requests e with
          | [] => Returns e
          | first :: _ =>
              optimizeRequests_stack depth'
                (set_direction (Request.direction first) e)
          end
      end
  end.

(** *** [moveToFloor] (lines 94-110)

    The method suspends at line 100 once per floor.  [Sleeping floor] is a
    call waiting there for its timer, [Finished] a call that has returned. *)
Inductive MoveState : Set :=
| Sleeping (floor : Z)
| Finished.

(** The loop test of line 99. *)
Definition moveToFloor_test (floor : Z) (e : t) : MoveState :=
  if decide (currentFloor e ≠ floor) then Sleeping floor else Finished.

(** The call, up to its first [await]: lines 95-99. *)
Definition moveToFloor_call (floor : Z) (e : t) : MoveState * list Event :=
  (moveToFloor_test floor e, [Moving (id e) (currentFloor e) floor]).

(** One turn of the loop after the timer has fired: lines 102-108, and the
    loop test again. *)
Definition moveToFloor_wake (floor : Z) (e : t) : t * MoveState * list Event :=
  let e' :=
    if decide (currentFloor e < floor)
    then set_currentFloor (double (currentFloor e + 1)) e
    else set_currentFloor (double (currentFloor e - 1)) e in
  (e', moveToFloor_test floor e', [Arrived (id e') (currentFloor e')]).

(** The whole call when nothing else runs in between; [fuel] bounds the
    number of turns of the loop. *)
Fixpoint moveToFloor_loop (fuel : nat) (floor : Z) (e : t)
  : option (t * list Event) :=
  match fuel with
  | O => None
  | S fuel' =>
      let '(e', state, arrived) := moveToFloor_wake floor e in
      match state with
      | Finished => Some (e', arrived)
      | Sleeping floor' =>
          '(e'', log) ← moveToFloor_loop fuel' floor' e';
          Some (e'', arrived ++ log)
      end
  end.

Definition moveToFloor (fuel : nat) (floor : Z) (e : t)
  : option (t * list Event) :=
  let '(state, moving) := moveToFloor_call floor e in
  match state with
  | Finished => Some (e, moving)
  | Sleeping floor' =>
      '(e', log) ← moveToFloor_loop fuel floor' e;
      Some (e', moving ++ log)
  end.

(** *** [processRequests] (lines 64-92)

    A call of [processRequests] is suspended either at line 70 or at line
    78, in both cases on a call of [moveToFloor]; its local [request] is
    kept with it. *)
Inductive Leg : Set := ToSource | ToDestination.

Record Activation : Set := mkActivation {
  request : Request.t;
  leg : Leg;
  move : MoveState
}.

(** Lines 73-78: pickup, then the call of [moveToFloor] that the method
    awaits. *)
Definition processRequests_pickup (request : Request.t) (e : t)
  : t * option Activation * list Event :=
  let e1 := set_passengers (double (passengers e + 1)) e in
  let '(state, moving) :=
    moveToFloor_call (Request.destinationFloor request) e1 in
  (e1, Some (mkActivation request ToDestination state),
   PickedUp (id e1) (currentFloor e1) :: moving).

(** Lines 66-72 and 91: the loop test, [shift], and the way to the source
    floor; [None] is the method returning. *)
Definition processRequests_loop (e : t)
  : t * option Activation * list Event :=
  match requests e with
  | [] => (set_isMoving false e, None, [])
  | request :: rest =>
      let e1 := set_requests rest e in
      if decide (currentFloor e1 ≠ Request.sourceFloor request) then
        let '(state, moving) :=
          moveToFloor_call (Request.sourceFloor request) e1 in
        (e1, Some (mkActivation request ToSource state), moving)
      else processRequests_pickup request e1
  end.

(** Lines 80-90: drop-off and the new direction, then the loop again. *)
Definition processRequests_dropoff (e : t)
  : t * option Activation * list Event :=
  let e1 := set_passengers (double (passengers e - 1)) e in
  let dropped := DroppedOff (id e1) (currentFloor e1) in
  let e2 :=
    match requests e1 with
    | [] => set_direction IDLE e1
    | first :: _ => set_direction (Request.direction first) e1
    end in
  let '(e3, next, log) := processRequests_loop e2 in
  (e3, next, dropped :: log).

(** The call, up to its first [await]: line 65 and the loop. *)
Definition processRequests (e : t) : t * option Activation * list Event :=
  processRequests_loop (set_isMoving true e).

(** A suspended activation runs on to its next [await]. *)
Definition resume (a : Activation) (e : t)
  : t * option Activation * list Event :=
  match move a with
  | Sleeping floor =>
      let '(e', state, arrived) := moveToFloor_wake floor e in
      (e', Some (mkActivation (request a) (leg a) state), arrived)
  | Finished =>
      match leg a with
      | ToSource => processRequests_pickup (request a) e
      | ToDestination => processRequests_dropoff e
      end
  end.

(** *** An elevator at run time: the object and the suspended calls of
    [processRequests] on it. *)
Record car : Set := mkCar {
  this : t;
  draining : list Activation
}.

Definition spawn (a : option Activation) (l : list Activation)
  : list Activation :=
  match a with
  | Some a' => l ++ [a']
  | None => l
  end.

(** *** [addRequest] (lines 28-49)

    [addRequest] gives the calls that return, with the value returned, the
    new state and the output; [None] is a call that returns nothing.  What
    such a call does instead is told by [addRequest_outcome] below, and
    [addRequest_outcome_returned] shows that the two agree on the calls
    that return. *)
Definition addRequest (request : Request.t) (c : car)
  : option (bool * car * list Event) :=
  if mutex (this c) then None
  else
    let e := set_mutex true (this c) in
    if decide (passengers e >= capacityLimit e) then
      Some (false, mkCar (set_mutex false e) (draining c),
            [AtCapacity (id e)])
    else
      e1 ← optimizeRequests (set_requests (requests e ++ [request]) e);
      let '(e2, started, log) :=
        if isMoving e1 then (e1, None, []) else processRequests e1 in
      Some (true, mkCar (set_mutex false e2) (spawn started (draining c)),
            log).

(** The three ways a call of [addRequest] can go: it finds the flag set
    and polls at lines 29-31, having changed nothing; it returns; or line
    41 throws, which rejects the promise of the call and leaves the object
    as it is at that point: lines 32 and 40 done, line 47 not reached. *)
Inductive Outcome : Set :=
| Polling
| Returned (accepted : bool) (c : car) (log : list Event)
| Thrown (c : car).

Definition addRequest_outcome (depth : nat) (request : Request.t) (c : car)
  : Outcome :=
  if mutex (this c) then Polling
  else
    let e := set_mutex true (this c) in
    if decide (passengers e >= capacityLimit e) then
      Returned false (mkCar (set_mutex false e) (draining c))
        [AtCapacity (id e)]
    else
      match
        optimizeRequests_stack depth (set_requests (requests e ++ [request]) e)
      with
      | Overflows e1 => Thrown (mkCar e1 (draining c))
      | Returns e1 =>
          let '(e2, started, log) :=
            if isMoving e1 then (e1, None, []) else processRequests e1 in
          Returned true
            (mkCar (set_mutex false e2) (spawn started (draining c))) log
      end.

End Elevator.

(** ** [class ElevatorController] (lines 113-146) *)

Module ElevatorController.

(** [minDistance] starts at [Infinity] (line 129). *)
Inductive Distance : Set :=
| Infinity
| Finite (d : Z).

(** [distance < minDistance] (line 138). *)
Definition closer (distance : Z) (minDistance : Distance) : bool :=
  match minDistance with
  | Infinity => true
  | Finite m => bool_decide (distance < m)
  end.

(** The loop of lines 131-142.  An elevator object is referred to by its
    position in [this.elevators]; [optimalElevator = None] is [null]. *)
Fixpoint findOptimalElevator_loop (elevators : list Elevator.t)
    (position : nat) (request : Request.t)
    (optimalElevator : option nat) (minDistance : Distance) : option nat :=
  match elevators with
  | [] => optimalElevator
  | elevator :: rest =>
      if decide (Elevator.passengers elevator >= Elevator.capacityLimit elevator)
      then findOptimalElevator_loop rest (S position) request
             optimalElevator minDistance
      else
        let distance :=
          Z.abs (double (Elevator.currentFloor elevator
                         - Request.sourceFloor request)) in
        if closer distance minDistance
        then findOptimalElevator_loop rest (S position) request
               (Some position) (Finite distance)
        else findOptimalElevator_loop rest (S position) request
               optimalElevator minDistance
  end.

Definition findOptimalElevator (elevators : list Elevator.car)
    (request : Request.t) : option nat :=
  findOptimalElevator_loop (Elevator.this <$> elevators) 0 request
    None Infinity.

(** [handleRequest] (lines 118-125).  The promise of [addRequest] is
    dropped by the source, and so is its result here; [None] is inherited
    from [addRequest]. *)
Definition handleRequest (request : Request.t) (elevators : list Elevator.car)
  : option (list Elevator.car * list Event) :=
  match findOptimalElevator elevators request with
  | Some position =>
      elevator ← elevators !! position;
      '(_, elevator', log) ← Elevator.addRequest request elevator;
      Some (<[position := elevator']> elevators, log)
  | None => Some (elevators, [NoAvailable])
  end.

End ElevatorController.

(** ** [class ElevatorSystem] (lines 148-173) *)

Module ElevatorSystem.

(** The constructor: elevators with ids 1 to [numElevators]. *)
Definition new (numElevators : nat) (capacityLimit : Z) : list Elevator.car :=
  (λ i : nat, Elevator.mkCar (Elevator.new (Z.of_nat i + 1) capacityLimit) [])
    <$> seq 0 numElevators.

(** The requests of [run] (lines 158-164). *)
Definition requests : list Request.t :=
  [Request.new 0 5; Request.new 3 10; Request.new 2 1; Request.new 7 0;
   Request.new 6 2].

End ElevatorSystem.

(** ** Runs

    What happens to one elevator is a sequence of calls of [addRequest] and
    of resumptions of its suspended activations, in any order. *)

Inductive Action : Set :=
| Call (sourceFloor destinationFloor : Z)   (* addRequest(new Request(..)) *)
| Resume (k : nat).                         (* the k-th activation runs on *)

Definition settle (k : nat) (next : option Elevator.Activation)
    (l : list Elevator.Activation) : list Elevator.Activation :=
  match next with
  | Some a => <[k := a]> l
  | None => delete k l
  end.

Definition car_resume (k : nat) (c : Elevator.car)
  : option (Elevator.car * list Event) :=
  a ← Elevator.draining c !! k;
  let '(e, next, log) := Elevator.resume a (Elevator.this c) in
  Some (Elevator.mkCar e (settle k next (Elevator.draining c)), log).

Definition car_step (action : Action) (c : Elevator.car)
  : option (Elevator.car * list Event) :=
  match action with
  | Call sourceFloor destinationFloor =>
      '(_, c', log) ←
        Elevator.addRequest (Request.new sourceFloor destinationFloor) c;
      Some (c', log)
  | Resume k => car_resume k c
  end.

Fixpoint car_run (schedule : list Action) (c : Elevator.car)
  : option (Elevator.car * list Event) :=
  match schedule with
  | [] => Some (c, [])
  | action :: later =>
      '(c1, log1) ← car_step action c;
      '(c2, log2) ← car_run later c1;
      Some (c2, log1 ++ log2)
  end.

(** The states an elevator built by [new Elevator(id, capacityLimit)] can
    be in. *)
Definition Reachable (id capacityLimit : Z) (c : Elevator.car) : Prop :=
  ∃ schedule log,
    car_run schedule (Elevator.mkCar (Elevator.new id capacityLimit) [])
    = Some (c, log).

(** The same for the whole bank: requests come in through the controller,
    and activations of any elevator run on. *)
Inductive SystemAction : Set :=
| Submit (request : Request.t)
| Wake (position k : nat).

Definition system_step (action : SystemAction) (elevators : list Elevator.car)
  : option (list Elevator.car * list Event) :=
  match action with
  | Submit request => ElevatorController.handleRequest request elevators
  | Wake position k =>
      c ← elevators !! position;
      '(c', log) ← car_resume k c;
      Some (<[position := c']> elevators, log)
  end.

Fixpoint system_run (schedule : list SystemAction)
    (elevators : list Elevator.car)
  : option (list Elevator.car * list Event) :=
  match schedule with
  | [] => Some (elevators, [])
  | action :: later =>
      '(s1, log1) ← system_step action elevators;
      '(s2, log2) ← system_run later s1;
      Some (s2, log1 ++ log2)
  end.

(** [elevatorSystem.run()] (lines 157-169 and 172-173): the five requests
    are handed to the controller one after the other before any timer can
    fire. *)
Definition demo_run : list SystemAction := Submit <$> ElevatorSystem.requests.

(** * Vocabulary of the properties *)

(** A request as the constructor builds it. *)
Definition constructed (r : Request.t) : Prop :=
  r = Request.new (Request.sourceFloor r) (Request.destinationFloor r).

(** [goes_before d a b]: [a] may stand before [b] in a queue served in
    direction [d]. *)
Definition goes_before (d : Direction) (a b : Request.t) : Prop :=
  match d with
  | UP => Request.destinationFloor a ≤ Request.destinationFloor b
  | DOWN => Request.destinationFloor b ≤ Request.destinationFloor a
  | IDLE => True
  end.

Definition in_order (d : Direction) (queue : list Request.t) : Prop :=
  StronglySorted (goes_before d) queue.

(** [after] is [before] sorted for direction [d], requests with the same
    destination keeping their order. *)
Definition sorted_from (d : Direction) (before after : list Request.t) : Prop :=
  in_order d after ∧
  after ≡ₚ before ∧
  ∀ floor,
    filter (λ r, Request.destinationFloor r = floor) after
    = filter (λ r, Request.destinationFloor r = floor) before.

(** The direction the reordering step works with: the elevator's own, or
    for an idle elevator that of the request queued first. *)
Definition adopted_direction (e : Elevator.t) : Direction :=
  match Elevator.direction e with
  | IDLE =>
      match Elevator.requests e with
      | first :: _ => Request.direction first
      | [] => IDLE
      end
  | d => d
  end.

(** The sort that [optimizeRequests] applies for a direction. *)
Definition sort_for (d : Direction) (l : list Request.t) : list Request.t :=
  match d with
  | UP => array_sort Elevator.ascending l
  | DOWN => array_sort Elevator.descending l
  | IDLE => l
  end.

Definition eligible (e : Elevator.t) : Prop :=
  Elevator.passengers e < Elevator.capacityLimit e.

Definition distance_to (request : Request.t) (e : Elevator.t) : Z :=
  Z.abs (double (Elevator.currentFloor e - Request.sourceFloor request)).

(** The elevator at [position] has room, no elevator with room is nearer
    to the source floor, and those before it are farther. *)
Definition nearest_eligible (request : Request.t)
    (elevators : list Elevator.t) (position : nat) : Prop :=
  ∃ e,
    elevators !! position = Some e ∧
    eligible e ∧
    (∀ j e', elevators !! j = Some e' → eligible e' →
       distance_to request e ≤ distance_to request e') ∧
    (∀ j e', elevators !! j = Some e' → eligible e' → (j < position)%nat →
       distance_to request e < distance_to request e').

(** What the loop of [findOptimalElevator] knows after the elevators
    [seen]. *)
Definition loop_state (request : Request.t) (seen : list Elevator.t)
    (optimalElevator : option nat)
    (minDistance : ElevatorController.Distance) : Prop :=
  match optimalElevator with
  | None =>
      minDistance = ElevatorController.Infinity ∧
      Forall (λ e, ¬ eligible e) seen
  | Some i =>
      nearest_eligible request seen i ∧
      ∃ e, seen !! i = Some e ∧
           minDistance = ElevatorController.Finite (distance_to request e)
  end.

Definition selected (request : Request.t) (elevators : list Elevator.t)
    (optimalElevator : option nat) : Prop :=
  match optimalElevator with
  | None => Forall (λ e, ¬ eligible e) elevators
  | Some i => nearest_eligible request elevators i
  end.

(** The floors reported on the way from [from] to [to], in order: the
    arrival at [to] is the last, [from] itself is not reported. *)
Definition floors_passed (from to : Z) : list Z :=
  if decide (from < to)
  then seqZ (from + 1) (to - from)
  else (λ k, from - k) <$> seqZ 1 (from - to).

Definition arrivals (id from to : Z) : list Event :=
  Arrived id <$> floors_passed from to.

(** The floor next to [from] on the side of [floor] (lines 102-106). *)
Definition toward (floor from : Z) : Z :=
  if decide (from < floor) then double (from + 1) else double (from - 1).

(** A state in which [processRequests] has been left running, and what it
    has logged so far. *)
Definition running (s : Elevator.t * option Elevator.Activation * list Event)
  : Elevator.car :=
  Elevator.mkCar s.1.1 (Elevator.spawn s.1.2 []).

Definition logged (s : Elevator.t * option Elevator.Activation * list Event)
  : list Event := s.2.

(** The floors between two floors, which is the number of resumptions
    the way takes. *)
Definition floors (from to : Z) : nat := Z.to_nat (Z.abs (from - to)).

(** One request, in the words of the description: the way to the source
    floor when the elevator is elsewhere, the pickup, the way to the
    destination floor, the drop-off. *)
Definition travel (id from to : Z) : list Event :=
  Moving id from to :: arrivals id from to.

Definition pickup_log (id from : Z) (r : Request.t) : list Event :=
  (if decide (from ≠ Request.sourceFloor r)
   then travel id from (Request.sourceFloor r) else [])
  ++ [PickedUp id (Request.sourceFloor r)].

Definition dropoff_log (id : Z) (r : Request.t) : list Event :=
  travel id (Request.sourceFloor r) (Request.destinationFloor r)
  ++ [DroppedOff id (Request.destinationFloor r)].

Definition trip_log (id from : Z) (r : Request.t) : list Event :=
  pickup_log id from r ++ dropoff_log id r.

Fixpoint drain_log (id from : Z) (queue : list Request.t) : list Event :=
  match queue with
  | [] => []
  | r :: rest =>
      trip_log id from r ++ drain_log id (Request.destinationFloor r) rest
  end.

(** The direction after a request: IDLE on an empty queue, else that of
    the request now first. *)
Definition next_direction (rest : list Request.t) : Direction :=
  match rest with
  | [] => IDLE
  | first :: _ => Request.direction first
  end.

(** The elevator with the passenger of [r] on board, and after [r]. *)
Definition picked (r : Request.t) (rest : list Request.t) (e : Elevator.t)
  : Elevator.t :=
  Elevator.set_passengers (double (Elevator.passengers e + 1))
    (Elevator.set_currentFloor (Request.sourceFloor r)
       (Elevator.set_requests rest e)).

Definition served (r : Request.t) (rest : list Request.t) (e : Elevator.t)
  : Elevator.t :=
  Elevator.set_direction (next_direction rest)
    (Elevator.set_currentFloor (Request.destinationFloor r)
       (Elevator.set_requests rest e)).

(** The activation that carries the passenger of [r]. *)
Definition carrying (r : Request.t) (e : Elevator.t) : Elevator.Activation :=
  Elevator.mkActivation r Elevator.ToDestination
    (Elevator.moveToFloor_test (Request.destinationFloor r) e).

(** The number of resumptions each part takes. *)
Definition pickup_steps (from : Z) (r : Request.t) : nat :=
  if decide (from ≠ Request.sourceFloor r)
  then S (floors from (Request.sourceFloor r)) else 0.

Definition dropoff_steps (r : Request.t) : nat :=
  S (floors (Request.sourceFloor r) (Request.destinationFloor r)).

Fixpoint drain_steps (from : Z) (queue : list Request.t) : nat :=
  match queue with
  | [] => 0
  | r :: rest =>
      pickup_steps from r + dropoff_steps r
      + drain_steps (Request.destinationFloor r) rest
  end.

(** The elevator when the queue [queue] has been served. *)
Fixpoint after_drain (queue : list Request.t) (e : Elevator.t) : Elevator.t :=
  match queue with
  | [] => Elevator.set_isMoving false e
  | r :: rest => after_drain rest (served r rest e)
  end.



(** The passengers on board while an activation is suspended: none on the
    way to the source floor, one on the way to the destination. *)
Definition on_board (a : Elevator.Activation) : Z :=
  match Elevator.leg a with
  | Elevator.ToSource => 0
  | Elevator.ToDestination => 1
  end.

(** The fields of an elevator against its suspended activations: at rest
    there is none and the elevator is empty and idle; otherwise there is
    exactly one, the elevator is marked as moving and carries what that
    activation has picked up. *)
Definition settled (e : Elevator.t) (acts : list Elevator.Activation) : Prop :=
  Forall constructed (Elevator.requests e) ∧
  Forall (λ a, constructed (Elevator.request a)) acts ∧
  match acts with
  | [] =>
      Elevator.isMoving e = false ∧ Elevator.passengers e = 0 ∧
      Elevator.direction e = IDLE ∧ Elevator.requests e = []
  | [a] =>
      Elevator.isMoving e = true ∧ Elevator.passengers e = on_board a ∧
      1 ≤ Elevator.capacityLimit e ∧ Elevator.direction e ≠ IDLE
  | _ => False
  end.

Definition consistent (c : Elevator.car) : Prop :=
  Elevator.mutex (Elevator.this c) = false ∧
  settled (Elevator.this c) (Elevator.draining c).

(** No method assigns to [id] or [capacityLimit]. *)
Definition same_elevator (e e' : Elevator.t) : Prop :=
  Elevator.id e' = Elevator.id e ∧
  Elevator.capacityLimit e' = Elevator.capacityLimit e.

(** The elevators of the demo after the five requests of [run] and the six
    steps in which its first elevator ends the first trip. *)
Definition demo_after_first_trip : option (list Elevator.car * list Event) :=
  system_run (demo_run ++ replicate 6 (Wake 0 0)) (ElevatorSystem.new 3 5).

(** The same six steps seen from the first elevator alone. *)
Definition first_trip_schedule : list Action :=
  [Call 0 5; Call 3 10; Call 2 1; Call 7 0; Call 6 2] ++ replicate 6 (Resume 0).

(** The requests an elevator holds: the one in service and the queue. *)
Definition held_with (next : option Elevator.Activation) (e : Elevator.t)
  : list Request.t :=
  match next with
  | Some a => Elevator.request a :: Elevator.requests e
  | None => Elevator.requests e
  end.

Definition held (c : Elevator.car) : list Request.t :=
  (Elevator.request <$> Elevator.draining c)
  ++ Elevator.requests (Elevator.this c).

(** The requests built for the calls of a schedule. *)
Definition submitted (schedule : list Action) : list Request.t :=
  omap (λ action,
          match action with
          | Call s d => Some (Request.new s d)
          | Resume _ => None
          end) schedule.

(** A request between floors of the exact range. *)
Definition exact_request (r : Request.t) : Prop :=
  exact (Request.sourceFloor r) ∧ exact (Request.destinationFloor r).

(** The number of floors between an elevator and the source floor of a
    request, as a count of floors: the difference is not rounded. *)
Definition floors_between (request : Request.t) (e : Elevator.t) : Z :=
  Z.abs (Elevator.currentFloor e - Request.sourceFloor request).

(** The elevator at [position] has room, no elevator with room is fewer
    floors away from the source floor, and those before it are more floors
    away. *)
Definition nearest_by_floors (request : Request.t)
    (elevators : list Elevator.t) (position : nat) : Prop :=
  ∃ e,
    elevators !! position = Some e ∧
    eligible e ∧
    (∀ j e', elevators !! j = Some e' → eligible e' →
       floors_between request e ≤ floors_between request e') ∧
    (∀ j e', elevators !! j = Some e' → eligible e' → (j < position)%nat →
       floors_between request e < floors_between request e').

(** The source floor of the request and the floors of the elevators are
    between -2^52 and 2^52, so that their differences are not rounded. *)
Definition near_floors (request : Request.t)
    (elevators : list Elevator.t) : Prop :=
  near (Request.sourceFloor request) ∧
  Forall (λ e, near (Elevator.currentFloor e)) elevators.

(** ** States used as instances *)

(** An elevator for one passenger that has just accepted the request from
    floor 0 to floor 5: the state after [Call 0 5] on [new Elevator(1, 1)]. *)
Definition full_car : Elevator.car :=
  Elevator.mkCar
    (Elevator.mk 1 1 0 UP [] 1 true false)
    [Elevator.mkActivation (Request.new 0 5) Elevator.ToDestination
       (Elevator.Sleeping 5)].

(** Three empty elevators for two passengers each, at floors 0, 3 and 7. *)
Definition bank_0_3_7 : list Elevator.car :=
  [Elevator.mkCar (Elevator.mk 1 2 0 IDLE [] 0 false false) [];
   Elevator.mkCar (Elevator.mk 2 2 3 IDLE [] 0 false false) [];
   Elevator.mkCar (Elevator.mk 3 2 7 IDLE [] 0 false false) []].

(** Two empty elevators at floors 2^53 - 2 and 2^53 - 3, and a request
    from floor -(2^53 - 1): the elevators are 2^54 - 3 and 2^54 - 4 floors
    away, and both differences round to 2^54 - 4. *)
Definition bank_far_up : list Elevator.car :=
  [Elevator.mkCar
     (Elevator.mk 1 2 9007199254740990 IDLE [] 0 false false) [];
   Elevator.mkCar
     (Elevator.mk 2 2 9007199254740989 IDLE [] 0 false false) []].

Definition request_far_down : Request.t :=
  Request.new (-9007199254740991) 0.


(** An idle elevator whose queue holds requests for floors 5, 2 and 9. *)
Definition idle_with_5_2_9 : Elevator.t :=
  Elevator.mk 1 5 0 IDLE
    [Request.new 0 5; Request.new 0 2; Request.new 0 9] 0 false false.

(** An elevator going up with the passenger of its first request on board
    and requests for floors 5, 2 and 9 in its queue. *)
Definition up_with_5_2_9 : Elevator.t :=
  Elevator.mk 1 5 0 UP
    [Request.new 0 5; Request.new 0 2; Request.new 0 9] 1 true false.


(** ** Vocabulary of the further properties *)

(** The floor an activation is heading for: the source floor of its
    request before the pickup, the destination floor after it. *)
Definition target (a : Elevator.Activation) : Z :=
  match Elevator.leg a with
  | Elevator.ToSource => Request.sourceFloor (Elevator.request a)
  | Elevator.ToDestination => Request.destinationFloor (Elevator.request a)
  end.

(** The call of [addRequest] as far as it returns. *)
Definition returned (outcome : Elevator.Outcome)
  : option (bool * Elevator.car * list Event) :=
  match outcome with
  | Elevator.Returned accepted c log => Some (accepted, c, log)
  | Elevator.Polling | Elevator.Thrown _ => None
  end.

(** The elevator stands on a floor of the exact range and the requests
    it holds are between such floors. *)
Definition ranged (c : Elevator.car) : Prop :=
  exact (Elevator.currentFloor (Elevator.this c)) ∧
  Forall exact_request (held c).

(** The elevator against the activation that serves a request: the
    direction is that of the request; a move that sleeps is a move to the
    target and the elevator is not there yet; a move that has returned has
    left the elevator at the target. *)
Definition on_course (e : Elevator.t) (a : Elevator.Activation) : Prop :=
  Elevator.direction e = Request.direction (Elevator.request a) ∧
  match Elevator.move a with
  | Elevator.Sleeping floor =>
      floor = target a ∧ Elevator.currentFloor e ≠ floor
  | Elevator.Finished => Elevator.currentFloor e = target a
  end.

(** Sorted by destination floor, one way or the other. *)
Definition monotone (queue : list Request.t) : Prop :=
  in_order UP queue ∨ in_order DOWN queue.

Definition steady (c : Elevator.car) : Prop :=
  consistent c ∧
  Forall (on_course (Elevator.this c)) (Elevator.draining c) ∧
  monotone (Elevator.requests (Elevator.this c)).

(** Counting the refusals and the drop-offs of a log. *)
Definition is_refusal (ev : Event) : bool :=
  match ev with
  | AtCapacity _ => true
  | _ => false
  end.

Definition is_dropoff (ev : Event) : bool :=
  match ev with
  | DroppedOff _ _ => true
  | _ => false
  end.

Definition refusals (log : list Event) : nat :=
  length (filter (λ ev, is_refusal ev = true) log).

Definition dropoffs (log : list Event) : nat :=
  length (filter (λ ev, is_dropoff ev = true) log).

(** The calls of a burst of requests, as actions on one elevator and as
    requests to the controller. *)
Definition calls (burst : list (Z * Z)) : list Action :=
  (λ sd, Call sd.1 sd.2) <$> burst.

Definition submissions (burst : list (Z * Z)) : list SystemAction :=
  (λ sd, Submit (Request.new sd.1 sd.2)) <$> burst.

(** An elevator at rest: no request, no passenger, no activation. *)
Definition at_rest (c : Elevator.car) : Prop :=
  Elevator.draining c = [] ∧
  Elevator.isMoving (Elevator.this c) = false ∧
  Elevator.direction (Elevator.this c) = IDLE ∧
  Elevator.requests (Elevator.this c) = [] ∧
  Elevator.passengers (Elevator.this c) = 0 ∧
  Elevator.mutex (Elevator.this c) = false.

(** A request object that the constructor cannot have made: its direction
    field is IDLE. *)
Definition handmade_idle_request : Request.t :=
  Request.mk 0 5 IDLE.

(** The first elevator of the demo after the calls for the requests from 0
    to 5 and from 7 to 0 and three turns of its timer. *)
Definition under_way : Elevator.car :=
  Elevator.mkCar
    (Elevator.mk 1 5 3 UP [Request.new 7 0] 1 true false)
    [Elevator.mkActivation (Request.new 0 5) Elevator.ToDestination
       (Elevator.Sleeping 5)].

Definition under_way_schedule : list Action :=
  [Call 0 5; Call 7 0; Resume 0; Resume 0; Resume 0].

(** Left alone, the elevator comes to rest: some number of resumptions of
    its activation, and nothing else, ends in a state at rest. *)
Definition comes_to_rest (c : Elevator.car) : Prop :=
  ∃ n c' log,
    car_run (replicate n (Resume 0)) c = Some (c', log) ∧ at_rest c'.




Definition under_way_log : list Event :=
  [PickedUp 1 0; Moving 1 0 5; Arrived 1 1; Arrived 1 2; Arrived 1 3].

(** The bank [bank_0_3_7] after the request from floor 2 to floor 6. *)
Definition bank_0_3_7_after : list Elevator.car :=
  [Elevator.mkCar (Elevator.mk 1 2 0 IDLE [] 0 false false) [];
   Elevator.mkCar (Elevator.mk 2 2 3 UP [] 0 true false)
     [Elevator.mkActivation (Request.new 2 6) Elevator.ToSource
        (Elevator.Sleeping 2)];
   Elevator.mkCar (Elevator.mk 3 2 7 IDLE [] 0 false false) []].

(** The five requests of the demo as a burst. *)
Definition demo_burst : list (Z * Z) :=
  [(0, 5); (3, 10); (2, 1); (7, 0); (6, 2)].

(** * Properties *)

(** ** Numbers *)

Lemma double_exact z : exact z → double z = z.
Proof.
  unfold exact, double. intros Hz. cbv zeta.
  destruct (Z.ltb_spec (Z.abs z) (2 ^ 53)) as [|Hbig]; [done|].
  assert (z = 9007199254740992 ∨ z = -9007199254740992) as [->| ->] by lia;
    reflexivity.
Qed.

(** Past 2^53 only every second integer is a double, past 2^54 every
    fourth; a number half way goes to the even significand. *)
Lemma double_rounds :
  double 9007199254740993 = 9007199254740992 ∧
  double 9007199254740994 = 9007199254740994 ∧
  double 9007199254740995 = 9007199254740996 ∧
  double (-9007199254740993) = -9007199254740992 ∧
  double 18014398509481981 = 18014398509481980 ∧
  double 18014398509481986 = 18014398509481984 ∧
  double 18014398509481987 = 18014398509481988.
Proof. by vm_compute. Qed.

Lemma near_exact z : near z → exact z.
Proof. unfold near, exact. lia. Qed.

Lemma near_difference a b : near a → near b → exact (a - b).
Proof. unfold near, exact. lia. Qed.

(** ** The sort *)

Section ArraySortFacts.
Context {A : Type} (compareFn : A → A → Z) (R : relation A).
Hypothesis compareFn_R : ∀ x y, compareFn x y ≤ 0 ↔ R x y.
Hypothesis R_total : ∀ x y, R x y ∨ R y x.
Hypothesis R_trans : ∀ x y z, R x y → R y z → R x z.

Lemma sort_insert_perm x l : sort_insert compareFn x l ≡ₚ x :: l.
Proof.
  induction l as [|y l IH]; simpl; [done|].
  case_decide; [done|].
  rewrite IH. apply Permutation_swap.
Qed.

Lemma array_sort_perm l : array_sort compareFn l ≡ₚ l.
Proof.
  induction l as [|x l IH]; simpl; [done|].
  rewrite sort_insert_perm. by f_equiv.
Qed.

Lemma sort_insert_sorted x l :
  StronglySorted R l → StronglySorted R (sort_insert compareFn x l).
Proof.
  induction 1 as [|y l Hl IH Hy]; simpl.
  - repeat constructor.
  - case_decide as Hxy.
    + apply compareFn_R in Hxy.
      constructor; [by constructor|].
      constructor; [done|].
      eapply Forall_impl; [exact Hy|]. intros z Hz. by eapply R_trans.
    + constructor; [done|].
      rewrite sort_insert_perm. constructor; [|done].
      destruct (R_total x y) as [Hc|Hc]; [|done].
      by apply compareFn_R in Hc.
Qed.

Lemma array_sort_sorted l : StronglySorted R (array_sort compareFn l).
Proof.
  induction l as [|x l IH]; simpl; [constructor|].
  by apply sort_insert_sorted.
Qed.

(** Stability: entries that compare as equal keep their order. *)
Section Stable.
Context (P : A → Prop) `{!∀ x, Decision (P x)}.
Hypothesis P_ties : ∀ x y, P x → P y → compareFn x y ≤ 0.

Lemma sort_insert_filter x l :
  filter P (sort_insert compareFn x l) = filter P (x :: l).
Proof.
  induction l as [|y l IH]; simpl; [done|].
  case_decide as Hxy; [done|].
  rewrite filter_cons, IH, !filter_cons.
  destruct (decide (P y)) as [Hy|Hy], (decide (P x)) as [Hx|Hx];
    try done.
  destruct Hxy. by apply P_ties.
Qed.

Lemma array_sort_filter l : filter P (array_sort compareFn l) = filter P l.
Proof.
  induction l as [|x l IH]; simpl; [done|].
  by rewrite sort_insert_filter, !filter_cons, IH.
Qed.
End Stable.
End ArraySortFacts.

(** ** Requests *)

Lemma new_constructed s d : constructed (Request.new s d).
Proof. done. Qed.

Lemma constructed_not_idle r : constructed r → Request.direction r ≠ IDLE.
Proof.
  intros ->. unfold Request.new; simpl. by case_decide.
Qed.

(** C10: the constructor is a total function; given twice the same floor it
    returns a request between that floor and itself whose direction is
    DOWN. *)
Theorem request_equal_floors_down (floor : Z) :
  Request.new floor floor
  = {| Request.sourceFloor := floor; Request.destinationFloor := floor;
       Request.direction := DOWN |}.
Proof.
  unfold Request.new. case_decide; [lia|done].
Qed.

(** ** The order of the queue *)

Lemma array_sort_ascending l :
  sorted_from UP l (array_sort Elevator.ascending l).
Proof.
  split_and!.
  - apply (array_sort_sorted Elevator.ascending (goes_before UP));
      unfold Elevator.ascending; simpl; intros; lia.
  - apply array_sort_perm.
  - intros floor. apply array_sort_filter.
    unfold Elevator.ascending. intros; lia.
Qed.

Lemma array_sort_descending l :
  sorted_from DOWN l (array_sort Elevator.descending l).
Proof.
  split_and!.
  - apply (array_sort_sorted Elevator.descending (goes_before DOWN));
      unfold Elevator.descending; simpl; intros; lia.
  - apply array_sort_perm.
  - intros floor. apply array_sort_filter.
    unfold Elevator.descending. intros; lia.
Qed.

Lemma sort_for_sorted d l : sorted_from d l (sort_for d l).
Proof.
  destruct d; simpl.
  - apply array_sort_ascending.
  - apply array_sort_descending.
  - split_and!; [|done..].
    induction l; constructor; [done|]. by apply Forall_true.
Qed.

Lemma optimizeRequests_unfold (e : Elevator.t) :
  Forall (λ r, Request.direction r ≠ IDLE) (Elevator.requests e) →
  Elevator.optimizeRequests e
  = Some (Elevator.set_requests
            (sort_for (adopted_direction e) (Elevator.requests e))
            (Elevator.set_direction (adopted_direction e) e)).
Proof.
  intros Hq. destruct e as [i c f d q p m x]; simpl in *.
  unfold Elevator.optimizeRequests, adopted_direction; simpl.
  destruct d; try done.
  destruct q as [|first rest]; [done|]. simpl.
  apply Forall_cons_1 in Hq as [Hfirst _].
  by destruct (Request.direction first).
Qed.

(** An idle elevator whose first request carries the direction IDLE (no
    request of the constructor does) makes the method call itself without
    end. *)
Lemma optimizeRequests_rec_endless depth (e : Elevator.t) first rest :
  Elevator.direction e = IDLE →
  Elevator.requests e = first :: rest →
  Request.direction first = IDLE →
  Elevator.optimizeRequests_rec depth e = None.
Proof.
  revert e. induction depth as [|depth IH]; intros e Hd Hq Hf; [done|].
  simpl. rewrite Hd, Hq. apply IH; simpl; done.
Qed.

Lemma optimizeRequests_deep depth (e : Elevator.t) :
  (2 ≤ depth)%nat →
  Elevator.optimizeRequests_rec depth e = Elevator.optimizeRequests e.
Proof.
  intros Hdepth. destruct depth as [|[|depth]]; [lia..|].
  destruct e as [i cap f d q p m x].
  unfold Elevator.optimizeRequests. simpl.
  destruct d; try done.
  destruct q as [|first rest]; [done|]. simpl.
  destruct (Request.direction first) eqn:Hf; try done.
  by rewrite (optimizeRequests_rec_endless depth _ first rest).
Qed.

(** C2: [optimizeRequests] keeps the direction UP or DOWN of the elevator
    and, when the elevator is idle, takes the direction of the request
    queued first; it then leaves the queue sorted by destination floor for
    that direction (ascending for UP, descending for DOWN), as a
    rearrangement of the old queue.  Destinations 5, 2, 9 come out as
    2, 5, 9 going up and as 9, 5, 2 going down. *)
Theorem optimizeRequests_sorts_for_direction :
  (∀ e : Elevator.t,
     Forall constructed (Elevator.requests e) →
     ∃ e',
       Elevator.optimizeRequests e = Some e' ∧
       Elevator.direction e' = adopted_direction e ∧
       sorted_from (adopted_direction e)
         (Elevator.requests e) (Elevator.requests e') ∧
       e' = Elevator.set_requests (Elevator.requests e')
              (Elevator.set_direction (Elevator.direction e') e)) ∧
  (∀ (e : Elevator.t) (a b c : Request.t),
     Request.destinationFloor a = 5 →
     Request.destinationFloor b = 2 →
     Request.destinationFloor c = 9 →
     Elevator.requests e = [a; b; c] →
     (Elevator.direction e = UP →
      Elevator.optimizeRequests e = Some (Elevator.set_requests [b; a; c] e)) ∧
     (Elevator.direction e = DOWN →
      Elevator.optimizeRequests e = Some (Elevator.set_requests [c; a; b] e))).
Proof.
  split.
  - intros e Hq. eexists. split.
    + apply optimizeRequests_unfold.
      eapply Forall_impl; [exact Hq|]. apply constructed_not_idle.
    + simpl. split_and!; [done| |done]. apply sort_for_sorted.
  - intros [i cap f d q p m x] a b c Ha Hb Hc Hq. simpl in *. subst q.
    unfold Elevator.optimizeRequests, Elevator.set_requests; simpl.
    destruct a, b, c; simpl in *; subst.
    split; intros ->; reflexivity.
Qed.

(** ** The choice of the controller *)

Lemma nearest_eligible_unique request elevators i j :
  nearest_eligible request elevators i →
  nearest_eligible request elevators j →
  i = j.
Proof.
  intros (ei & Hi & Hei & Hmin_i & Hfirst_i) (ej & Hj & Hej & Hmin_j & Hfirst_j).
  destruct (Nat.lt_trichotomy i j) as [Hlt|[->|Hlt]]; [|done|].
  - specialize (Hfirst_j i ei Hi Hei Hlt). specialize (Hmin_i j ej Hj Hej). lia.
  - specialize (Hfirst_i j ej Hj Hej Hlt). specialize (Hmin_j i ei Hi Hei). lia.
Qed.

Lemma loop_state_skip request seen e optimalElevator minDistance :
  ¬ eligible e →
  loop_state request seen optimalElevator minDistance →
  loop_state request (seen ++ [e]) optimalElevator minDistance.
Proof.
  intros He. destruct optimalElevator as [i|]; simpl.
  - intros [(ei & Hi & Hei & Hmin & Hfirst) (e0 & Hi0 & ->)].
    pose proof (lookup_lt_Some _ _ _ Hi) as Hlt.
    split.
    + exists ei. split_and!; [by rewrite lookup_app_l|done|..].
      * intros j e' [[_ Hj]|[_ ->]]%lookup_snoc_Some; [by eapply Hmin|done].
      * intros j e' [[_ Hj]|[_ ->]]%lookup_snoc_Some; [by eapply Hfirst|done].
    + exists e0. by rewrite lookup_app_l.
  - intros [-> Hseen]. split; [done|].
    apply Forall_app. split; [done|]. by constructor.
Qed.

Lemma loop_state_take request seen e optimalElevator minDistance :
  eligible e →
  ElevatorController.closer (distance_to request e) minDistance = true →
  loop_state request seen optimalElevator minDistance →
  loop_state request (seen ++ [e]) (Some (length seen))
    (ElevatorController.Finite (distance_to request e)).
Proof.
  intros He Hcloser Hst.
  assert (∀ j e', seen !! j = Some e' → eligible e' →
            distance_to request e < distance_to request e') as Hbefore.
  { intros j e' Hj He'. destruct optimalElevator as [i|]; simpl in Hst.
    - destruct Hst as [(ei & Hi & Hei & Hmin & Hfirst) (e0 & Hi0 & ->)].
      simpl in Hcloser. apply bool_decide_eq_true in Hcloser.
      assert (e0 = ei) as -> by congruence.
      specialize (Hmin j e' Hj He'). lia.
    - destruct Hst as [_ Hseen].
      rewrite Forall_lookup in Hseen. by destruct (Hseen j e' Hj). }
  simpl. split.
  - exists e. split_and!; [by rewrite list_lookup_middle|done|..].
    + intros j e' [[_ Hj]|[_ ->]]%lookup_snoc_Some He'; [|lia].
      specialize (Hbefore j e' Hj He'). lia.
    + intros j e' [[_ Hj]|[-> _]]%lookup_snoc_Some He' Hlt; [|lia].
      by eapply Hbefore.
  - exists e. by rewrite list_lookup_middle.
Qed.

Lemma loop_state_keep request seen e optimalElevator minDistance :
  eligible e →
  ElevatorController.closer (distance_to request e) minDistance = false →
  loop_state request seen optimalElevator minDistance →
  loop_state request (seen ++ [e]) optimalElevator minDistance.
Proof.
  intros He Hcloser Hst. destruct optimalElevator as [i|]; simpl in *.
  - destruct Hst as [(ei & Hi & Hei & Hmin & Hfirst) (e0 & Hi0 & ->)].
    simpl in Hcloser. apply bool_decide_eq_false in Hcloser.
    assert (e0 = ei) as -> by congruence.
    pose proof (lookup_lt_Some _ _ _ Hi) as Hlt.
    split.
    + exists ei. split_and!; [by rewrite lookup_app_l|done|..].
      * intros j e' [[_ Hj]|[_ ->]]%lookup_snoc_Some He'; [by eapply Hmin|lia].
      * intros j e' [[_ Hj]|[-> _]]%lookup_snoc_Some He' Hlt';
          [by eapply Hfirst|lia].
    + exists ei. by rewrite lookup_app_l.
  - destruct Hst as [-> _]. done.
Qed.

Lemma findOptimalElevator_loop_selected request rest :
  ∀ seen optimalElevator minDistance,
    loop_state request seen optimalElevator minDistance →
    selected request (seen ++ rest)
      (ElevatorController.findOptimalElevator_loop rest (length seen) request
         optimalElevator minDistance).
Proof.
  induction rest as [|e rest IH]; intros seen optimalElevator minDistance Hst.
  - rewrite app_nil_r. simpl.
    destruct optimalElevator; simpl in *; tauto.
  - rewrite (cons_middle e seen rest), app_assoc.
    assert (S (length seen) = length (seen ++ [e])) as Hlen
      by (rewrite length_app; simpl; lia).
    simpl. rewrite Hlen. case_decide as Hfull.
    + apply IH, loop_state_skip; [unfold eligible; lia|done].
    + fold (distance_to request e).
      destruct (ElevatorController.closer _ _) eqn:Hcloser.
      * apply IH. eapply loop_state_take; [unfold eligible; lia|done..].
      * apply IH. eapply loop_state_keep; [unfold eligible; lia|done..].
Qed.

Lemma findOptimalElevator_selected elevators request :
  selected request (Elevator.this <$> elevators)
    (ElevatorController.findOptimalElevator elevators request).
Proof.
  apply (findOptimalElevator_loop_selected request _ [] None
           ElevatorController.Infinity).
  split; [done|constructor].
Qed.

Lemma findOptimalElevator_nearest elevators request position :
  ElevatorController.findOptimalElevator elevators request = Some position
  ↔ nearest_eligible request (Elevator.this <$> elevators) position.
Proof.
  pose proof (findOptimalElevator_selected elevators request) as Hsel.
  split.
  - intros Hfound. by rewrite Hfound in Hsel.
  - intros Hnear.
    destruct (ElevatorController.findOptimalElevator elevators request)
      as [j|]; simpl in Hsel.
    + f_equal. by eapply nearest_eligible_unique.
    + destruct Hnear as (e & Hpos & He & _).
      rewrite Forall_lookup in Hsel. by destruct (Hsel _ _ Hpos).
Qed.

Lemma findOptimalElevator_none elevators request :
  ElevatorController.findOptimalElevator elevators request = None
  ↔ Forall (λ c, ¬ eligible (Elevator.this c)) elevators.
Proof.
  pose proof (findOptimalElevator_selected elevators request) as Hsel.
  split.
  - intros Hnone. rewrite Hnone in Hsel. simpl in Hsel.
    by rewrite Forall_fmap in Hsel.
  - intros Hnone.
    destruct (ElevatorController.findOptimalElevator elevators request)
      as [j|]; [|done].
    destruct Hsel as (e & Hpos & He & _).
    rewrite list_lookup_fmap in Hpos.
    destruct (elevators !! j) as [c|] eqn:Hj; [|done].
    simpl in Hpos. injection Hpos as <-.
    rewrite Forall_lookup in Hnone. by destruct (Hnone _ _ Hj).
Qed.

(** Between -2^52 and 2^52 the distance [findOptimalElevator] computes is
    the number of floors in between. *)
Lemma distance_to_floors_between request (e : Elevator.t) :
  near (Request.sourceFloor request) →
  near (Elevator.currentFloor e) →
  distance_to request e = floors_between request e.
Proof.
  intros Hsource He. unfold distance_to, floors_between.
  by rewrite double_exact by by apply near_difference.
Qed.

Lemma nearest_eligible_by_floors request elevators position :
  near_floors request elevators →
  nearest_eligible request elevators position
  ↔ nearest_by_floors request elevators position.
Proof.
  intros [Hsource Hnear]. rewrite Forall_lookup in Hnear.
  assert (∀ j e, elevators !! j = Some e →
            distance_to request e = floors_between request e) as Hsame.
  { intros j e Hj. apply distance_to_floors_between; [done|by eapply Hnear]. }
  split; intros (e & Hpos & He & Hmin & Hfirst); exists e;
    (split_and!; [done|done|..]).
  - intros j e' Hj He'.
    rewrite <- (Hsame _ _ Hpos), <- (Hsame _ _ Hj). by eapply Hmin.
  - intros j e' Hj He' Hlt.
    rewrite <- (Hsame _ _ Hpos), <- (Hsame _ _ Hj). by eapply Hfirst.
  - intros j e' Hj He'.
    rewrite (Hsame _ _ Hpos), (Hsame _ _ Hj). by eapply Hmin.
  - intros j e' Hj He' Hlt.
    rewrite (Hsame _ _ Hpos), (Hsame _ _ Hj). by eapply Hfirst.
Qed.

(** C1, as it fails: with two empty elevators at floors 2^53 - 2 and
    2^53 - 3 and a request from floor -(2^53 - 1), the second elevator has
    room and is one floor nearer to the source floor, but the two
    differences round to the same number and [findOptimalElevator] returns
    the first elevator, to which [handleRequest] hands the request: the
    elevator selected is not the nearest one. *)
Lemma findOptimalElevator_rounds_distances :
  ElevatorController.findOptimalElevator bank_far_up request_far_down
  = Some 0%nat ∧
  (∃ first second,
     Elevator.this <$> bank_far_up = [first; second] ∧
     eligible second ∧
     floors_between request_far_down first = 18014398509481981 ∧
     floors_between request_far_down second = 18014398509481980 ∧
     distance_to request_far_down first = 18014398509481980 ∧
     distance_to request_far_down second = 18014398509481980) ∧
  nearest_by_floors request_far_down (Elevator.this <$> bank_far_up) 1 ∧
  ¬ nearest_by_floors request_far_down (Elevator.this <$> bank_far_up) 0 ∧
  (∃ accepted log,
     ElevatorController.handleRequest request_far_down bank_far_up
     = Some (<[0%nat := accepted]> bank_far_up, log) ∧
     held accepted = [request_far_down]).
Proof.
  split_and!.
  - by vm_compute.
  - eexists _, _. split; [reflexivity|].
    split_and!; by vm_compute.
  - eexists. split; [reflexivity|]. split; [by vm_compute|].
    split.
    + intros [|[|j]] e'; simpl; intros Hj He'; simplify_eq;
        by vm_compute.
    + intros [|[|j]] e'; simpl; intros Hj He' Hlt; simplify_eq;
        first [lia|by vm_compute].
  - intros (e & Hpos & _ & Hmin & _). simpl in Hpos. simplify_eq.
    specialize (Hmin 1%nat _ eq_refl).
    assert (eligible (Elevator.mk 2 2 9007199254740989 IDLE [] 0 false false))
      as He' by (by vm_compute).
    specialize (Hmin He'). by vm_compute in Hmin.
  - eexists _, _. split; [by vm_compute|]. by vm_compute.
Qed.

(** C1, amended: when the source floor of the request and the floors of the
    elevators are between -2^52 and 2^52, [findOptimalElevator] returns the
    elevator that has room and is the fewest floors away from the source
    floor of the request, the first in the order of [this.elevators] when
    several are equally near, and [null] exactly when no elevator has room;
    [handleRequest] hands the request to that elevator and to no other.
    With elevators at floors 0, 3 and 7, all with room, a request from
    floor 2 goes to the one at floor 3. *)
Theorem handleRequest_selects_nearest_eligible :
  (∀ (elevators : list Elevator.car) (request : Request.t),
     near_floors request (Elevator.this <$> elevators) →
     (∀ position : nat,
        ElevatorController.findOptimalElevator elevators request
        = Some position
        ↔ nearest_by_floors request (Elevator.this <$> elevators) position) ∧
     (ElevatorController.findOptimalElevator elevators request = None
      ↔ Forall (λ c, ¬ eligible (Elevator.this c)) elevators) ∧
     (∀ position c,
        nearest_by_floors request (Elevator.this <$> elevators) position →
        elevators !! position = Some c →
        ElevatorController.handleRequest request elevators
        = '(_, c', log) ← Elevator.addRequest request c;
          Some (<[position := c']> elevators, log))) ∧
  (∀ (a b c : Elevator.car) (request : Request.t),
     Elevator.currentFloor (Elevator.this a) = 0 →
     Elevator.currentFloor (Elevator.this b) = 3 →
     Elevator.currentFloor (Elevator.this c) = 7 →
     eligible (Elevator.this a) →
     eligible (Elevator.this b) →
     eligible (Elevator.this c) →
     Request.sourceFloor request = 2 →
     ElevatorController.findOptimalElevator [a; b; c] request = Some 1%nat).
Proof.
  split.
  - intros elevators request Hnear.
    assert (∀ position,
              ElevatorController.findOptimalElevator elevators request
              = Some position
              ↔ nearest_by_floors request (Elevator.this <$> elevators)
                  position) as Hsome.
    { intros position.
      rewrite <- (nearest_eligible_by_floors _ _ _ Hnear).
      apply findOptimalElevator_nearest. }
    split_and!; [exact Hsome|apply findOptimalElevator_none|].
    intros position c Hposition Hpos.
    apply Hsome in Hposition.
    unfold ElevatorController.handleRequest. by rewrite Hposition, Hpos.
  - intros [[ia ca fa da qa pa ma xa] ?] [[ib cb fb db qb pb mb xb] ?]
      [[ic cc fc dc qc pc mc xc] ?] [s d dir]; unfold eligible; simpl.
    intros -> -> -> Ha Hb Hc ->.
    unfold ElevatorController.findOptimalElevator; simpl.
    repeat (case_decide; [lia|]). reflexivity.
Qed.

(** C8: when every elevator is full, [handleRequest] logs that no
    elevator is available and does nothing else: [addRequest] is not called
    on any elevator, the request is kept nowhere, and every elevator is as
    it was. *)
Theorem handleRequest_all_full_unserved
    (request : Request.t) (elevators : list Elevator.car) :
  Forall (λ c, Elevator.passengers (Elevator.this c)
               >= Elevator.capacityLimit (Elevator.this c)) elevators →
  ElevatorController.findOptimalElevator elevators request = None ∧
  ElevatorController.handleRequest request elevators
  = Some (elevators, [NoAvailable]).
Proof.
  intros Hfull.
  pose proof (findOptimalElevator_selected elevators request) as Hsel.
  unfold ElevatorController.handleRequest.
  destruct (ElevatorController.findOptimalElevator elevators request)
    as [j|]; [|done].
  destruct Hsel as (e & Hpos & He & _).
  rewrite list_lookup_fmap in Hpos.
  destruct (elevators !! j) as [c|] eqn:Hj; [|done].
  simpl in Hpos. injection Hpos as <-.
  rewrite Forall_lookup in Hfull. specialize (Hfull _ _ Hj).
  unfold eligible in He. lia.
Qed.

(** ** Motion *)

Lemma floors_passed_here floor : floors_passed floor floor = [].
Proof.
  unfold floors_passed. case_decide; [lia|].
  by rewrite Z.sub_diag.
Qed.

(** Inside the exact range a step is a step by one. *)
Lemma toward_exact floor from :
  exact floor → exact from → from ≠ floor →
  toward floor from = (if decide (from < floor) then from + 1 else from - 1) ∧
  exact (toward floor from).
Proof.
  unfold toward, exact. intros Hfloor Hfrom Hne.
  case_decide; rewrite double_exact by (unfold exact; lia); split; (done || lia).
Qed.

Lemma floors_passed_step from to :
  exact from → exact to → from ≠ to →
  floors_passed from to = toward to from :: floors_passed (toward to from) to.
Proof.
  intros Hfrom Hto Hne.
  destruct (toward_exact to from Hto Hfrom Hne) as [-> _].
  unfold floors_passed.
  destruct (decide (from < to)) as [Hlt|Hge].
  - rewrite seqZ_cons by lia. f_equal.
    destruct (decide (from + 1 < to)).
    + f_equal; lia.
    + replace (Z.pred (to - from)) with 0 by lia.
      by replace (from + 1 - to) with 0 by lia.
  - rewrite seqZ_cons by lia. rewrite fmap_cons. f_equal.
    destruct (decide (from - 1 < to)); [lia|].
    replace (Z.succ 1) with (1 + 1) by lia.
    rewrite <- fmap_add_seqZ, <- list_fmap_compose.
    replace (Z.pred (from - to)) with (from - 1 - to) by lia.
    apply list_fmap_ext. intros _ k _. simpl. lia.
Qed.

Lemma toward_nearer floor from :
  exact floor → exact from → from ≠ floor →
  Z.abs (toward floor from - floor) = Z.abs (from - floor) - 1.
Proof.
  intros Hfloor Hfrom Hne.
  destruct (toward_exact floor from Hfloor Hfrom Hne) as [-> _].
  case_decide; lia.
Qed.

Lemma moveToFloor_wake_toward floor (e : Elevator.t) :
  Elevator.moveToFloor_wake floor e
  = (Elevator.set_currentFloor (toward floor (Elevator.currentFloor e)) e,
     Elevator.moveToFloor_test floor
       (Elevator.set_currentFloor (toward floor (Elevator.currentFloor e)) e),
     [Arrived (Elevator.id e) (toward floor (Elevator.currentFloor e))]).
Proof.
  unfold Elevator.moveToFloor_wake, toward. by case_decide.
Qed.

Lemma set_currentFloor_same (e : Elevator.t) :
  Elevator.set_currentFloor (Elevator.currentFloor e) e = e.
Proof. by destruct e. Qed.

Lemma moveToFloor_loop_arrives fuel floor :
  exact floor →
  ∀ e : Elevator.t,
    exact (Elevator.currentFloor e) →
    Elevator.currentFloor e ≠ floor →
    (Z.to_nat (Z.abs (Elevator.currentFloor e - floor)) ≤ fuel)%nat →
    Elevator.moveToFloor_loop fuel floor e
    = Some (Elevator.set_currentFloor floor e,
            arrivals (Elevator.id e) (Elevator.currentFloor e) floor).
Proof.
  intros Hfloor.
  induction fuel as [|fuel IH]; intros e He Hne Hfuel; [lia|].
  cbn [Elevator.moveToFloor_loop]. rewrite moveToFloor_wake_toward.
  unfold arrivals. rewrite floors_passed_step by done.
  pose proof (toward_nearer floor _ Hfloor He Hne) as Hnear.
  destruct (toward_exact floor _ Hfloor He Hne) as [_ Hnext].
  unfold Elevator.moveToFloor_test; simpl.
  case_decide as Hthere.
  - rewrite IH; simpl; [done|done|done|lia].
  - rewrite Hthere.
    by rewrite floors_passed_here.
Qed.

(** Past the exact range a step can round back to where it started: on
    the way up to 2^53 + 2 the elevator stays at 2^53. *)
Lemma moveToFloor_loop_stalls fuel :
  ∀ e : Elevator.t,
    0 ≤ Elevator.currentFloor e ≤ 9007199254740992 →
    Elevator.moveToFloor_loop fuel 9007199254740994 e = None.
Proof.
  induction fuel as [|fuel IH]; intros e He; [done|].
  cbn [Elevator.moveToFloor_loop]. rewrite moveToFloor_wake_toward.
  assert (0 ≤ toward 9007199254740994 (Elevator.currentFloor e)
          ≤ 9007199254740992) as Hnext.
  { unfold toward. rewrite decide_True by lia.
    destruct (decide (Elevator.currentFloor e = 9007199254740992)) as [->|Hne].
    - by vm_compute.
    - rewrite double_exact by (unfold exact; lia). lia. }
  unfold Elevator.moveToFloor_test; simpl.
  rewrite decide_True by lia.
  by rewrite IH.
Qed.

(** C9, as it fails: at floor 2^53 a turn of the loop towards floor
    2^53 + 2 adds one and is rounded back, so the elevator stays where it
    is and the distance does not decrease; called on an elevator as the
    constructor builds it, [moveToFloor(9007199254740994)] returns for no
    number of turns. *)
Lemma moveToFloor_stalls_past_exact_range :
  Elevator.currentFloor
    (Elevator.moveToFloor_wake 9007199254740994
       (Elevator.set_currentFloor 9007199254740992 (Elevator.new 1 5))).1.1
  = 9007199254740992 ∧
  ¬ ∃ fuel result,
      Elevator.moveToFloor fuel 9007199254740994 (Elevator.new 1 5)
      = Some result.
Proof.
  split; [by vm_compute|].
  intros (fuel & result & Hreturns).
  unfold Elevator.moveToFloor, Elevator.moveToFloor_call,
    Elevator.moveToFloor_test in Hreturns.
  simpl in Hreturns.
  rewrite moveToFloor_loop_stalls in Hreturns by (simpl; lia).
  done.
Qed.

(** C9, amended: for an elevator and a target floor between -2^53 and
    2^53, a turn of the loop of [moveToFloor] moves the elevator by exactly
    one floor, up when it is below the target and down otherwise, which
    brings it one floor nearer to the target and changes nothing else; and
    the call returns: given as many turns as there are floors in between
    (or more) it ends with the elevator at the target, after announcing the
    move and each floor on the way. *)
Theorem moveToFloor_terminates_at_floor (e : Elevator.t) (floor : Z) :
  exact (Elevator.currentFloor e) →
  exact floor →
  (Elevator.currentFloor e ≠ floor →
   ∃ next,
     Elevator.moveToFloor_wake floor e
     = (Elevator.set_currentFloor next e,
        Elevator.moveToFloor_test floor (Elevator.set_currentFloor next e),
        [Arrived (Elevator.id e) next]) ∧
     Elevator.currentFloor (Elevator.moveToFloor_wake floor e).1.1 = next ∧
     (Elevator.currentFloor e < floor → next = Elevator.currentFloor e + 1) ∧
     (Elevator.currentFloor e > floor → next = Elevator.currentFloor e - 1) ∧
     Z.abs (next - floor) = Z.abs (Elevator.currentFloor e - floor) - 1 ∧
     Z.abs (next - floor) < Z.abs (Elevator.currentFloor e - floor)) ∧
  (∀ fuel,
     (Z.to_nat (Z.abs (Elevator.currentFloor e - floor)) ≤ fuel)%nat →
     ∃ e',
       Elevator.moveToFloor fuel floor e
       = Some (e', Moving (Elevator.id e) (Elevator.currentFloor e) floor
                   :: arrivals (Elevator.id e) (Elevator.currentFloor e) floor) ∧
       Elevator.currentFloor e' = floor ∧
       Elevator.id e' = Elevator.id e ∧
       Elevator.capacityLimit e' = Elevator.capacityLimit e ∧
       Elevator.direction e' = Elevator.direction e ∧
       Elevator.requests e' = Elevator.requests e ∧
       Elevator.passengers e' = Elevator.passengers e ∧
       Elevator.isMoving e' = Elevator.isMoving e ∧
       Elevator.mutex e' = Elevator.mutex e).
Proof.
  intros He Hfloor. split.
  - intros Hne. exists (toward floor (Elevator.currentFloor e)).
    split; [apply moveToFloor_wake_toward|].
    split; [by rewrite moveToFloor_wake_toward|].
    pose proof (toward_nearer floor _ Hfloor He Hne).
    destruct (toward_exact floor _ Hfloor He Hne) as [Hstep _].
    rewrite Hstep in *. case_decide; split_and!; lia.
  - intros fuel Hfuel. exists (Elevator.set_currentFloor floor e).
    split; [|by destruct e].
    unfold Elevator.moveToFloor, Elevator.moveToFloor_call,
      Elevator.moveToFloor_test.
    case_decide as Hthere.
    + by rewrite moveToFloor_loop_arrives.
    + rewrite <- Hthere.
      unfold arrivals. by rewrite floors_passed_here, set_currentFloor_same.
Qed.

(** ** The drain *)

Lemma car_run_app schedule1 schedule2 c c1 c2 log1 log2 :
  car_run schedule1 c = Some (c1, log1) →
  car_run schedule2 c1 = Some (c2, log2) →
  car_run (schedule1 ++ schedule2) c = Some (c2, log1 ++ log2).
Proof.
  revert c log1. induction schedule1 as [|action later IH]; intros c log1 H1 H2.
  - simpl in H1. injection H1 as -> <-. done.
  - simpl in *. destruct (car_step action c) as [[c' log']|]; [|done].
    simpl in *.
    destruct (car_run later c') as [[c'' log'']|] eqn:Hlater; [|done].
    simpl in H1. injection H1 as -> <-.
    rewrite (IH _ _ Hlater H2). simpl. by rewrite app_assoc.
Qed.

Lemma car_run_travel n :
  ∀ (e : Elevator.t) request leg floor,
    exact (Elevator.currentFloor e) →
    exact floor →
    Elevator.currentFloor e ≠ floor →
    floors (Elevator.currentFloor e) floor = n →
    car_run (replicate n (Resume 0))
      (Elevator.mkCar e
         [Elevator.mkActivation request leg (Elevator.Sleeping floor)])
    = Some (Elevator.mkCar (Elevator.set_currentFloor floor e)
              [Elevator.mkActivation request leg Elevator.Finished],
            arrivals (Elevator.id e) (Elevator.currentFloor e) floor).
Proof.
  unfold floors.
  induction n as [|n IH]; intros e request leg floor He Hfloor Hne Hn; [lia|].
  pose proof (toward_nearer floor _ Hfloor He Hne) as Hnear.
  destruct (toward_exact floor _ Hfloor He Hne) as [_ Hnext].
  cbn [replicate car_run car_step car_resume Elevator.draining Elevator.this
       lookup list_lookup mbind option_bind Elevator.resume Elevator.move
       Elevator.request Elevator.leg].
  rewrite moveToFloor_wake_toward.
  unfold arrivals. rewrite floors_passed_step by done.
  unfold Elevator.moveToFloor_test, settle; simpl.
  case_decide as Hthere.
  - rewrite IH; simpl; [done|done|done|done|lia].
  - rewrite Hthere in *. replace n with 0%nat by lia.
    by rewrite floors_passed_here.
Qed.

Lemma car_run_pickup (e : Elevator.t) r rest :
  Elevator.requests e = r :: rest →
  exact (Elevator.currentFloor e) →
  exact (Request.sourceFloor r) →
  ∃ log,
    car_run (replicate (pickup_steps (Elevator.currentFloor e) r) (Resume 0))
      (running (Elevator.processRequests_loop e))
    = Some (Elevator.mkCar (picked r rest e) [carrying r (picked r rest e)],
            log) ∧
    logged (Elevator.processRequests_loop e) ++ log
    = pickup_log (Elevator.id e) (Elevator.currentFloor e) r
      ++ [Moving (Elevator.id e) (Request.sourceFloor r)
            (Request.destinationFloor r)].
Proof.
  destruct e as [i cap f d q p m x]. intros Hq He Hr; simpl in *; subst q.
  unfold Elevator.processRequests_loop, pickup_steps, pickup_log, picked,
    carrying.
  cbn -[car_run replicate].
  case_decide as Hsrc.
  - unfold Elevator.moveToFloor_test at 1. cbn -[car_run replicate].
    rewrite decide_True by done.
    rewrite replicate_S_end. eexists. split.
    + eapply car_run_app.
      * apply car_run_travel; simpl; done.
      * reflexivity.
    + cbn. unfold travel. cbn. by rewrite <- app_assoc.
  - subst f. eexists. split; [reflexivity|]. done.
Qed.

Lemma processRequests_dropoff_next (e : Elevator.t) :
  Elevator.processRequests_dropoff e
  = let s :=
      Elevator.processRequests_loop
        (Elevator.set_direction (next_direction (Elevator.requests e))
           (Elevator.set_passengers (double (Elevator.passengers e - 1)) e)) in
    (s.1.1, s.1.2,
     DroppedOff (Elevator.id e) (Elevator.currentFloor e) :: s.2).
Proof.
  unfold Elevator.processRequests_dropoff. cbv zeta.
  change (Elevator.requests
            (Elevator.set_passengers (double (Elevator.passengers e - 1)) e))
    with (Elevator.requests e).
  unfold next_direction.
  destruct (Elevator.requests e) as [|first rest].
  - by destruct (Elevator.processRequests_loop _) as [[? ?] ?].
  - by destruct (Elevator.processRequests_loop _) as [[? ?] ?].
Qed.

Lemma car_run_arrived (e e2 : Elevator.t) r :
  Elevator.set_direction (next_direction (Elevator.requests e))
    (Elevator.set_passengers (double (Elevator.passengers e - 1)) e) = e2 →
  car_run [Resume 0]
    (Elevator.mkCar e
       [Elevator.mkActivation r Elevator.ToDestination Elevator.Finished])
  = Some (running (Elevator.processRequests_loop e2),
          DroppedOff (Elevator.id e) (Elevator.currentFloor e)
          :: logged (Elevator.processRequests_loop e2)).
Proof.
  intros <-.
  cbn [car_run car_step car_resume Elevator.draining Elevator.this
       lookup list_lookup mbind option_bind Elevator.resume Elevator.move
       Elevator.request Elevator.leg].
  rewrite processRequests_dropoff_next. cbv zeta.
  destruct (Elevator.processRequests_loop _) as [[e' [a|]] log];
    cbn; by rewrite app_nil_r.
Qed.

Lemma dropoff_served (e : Elevator.t) r rest :
  exact (Elevator.passengers e) →
  exact (Elevator.passengers e + 1) →
  let arrived :=
    Elevator.set_currentFloor (Request.destinationFloor r) (picked r rest e) in
  Elevator.set_direction (next_direction (Elevator.requests arrived))
    (Elevator.set_passengers (double (Elevator.passengers arrived - 1))
       arrived)
  = served r rest e.
Proof.
  destruct e as [i cap f d q p m x]. simpl. intros Hp Hp1.
  unfold served, picked, Elevator.set_direction, Elevator.set_passengers,
    Elevator.set_currentFloor, Elevator.set_requests; cbn.
  rewrite (double_exact (p + 1)) by done.
  by rewrite Z.add_simpl_r, double_exact.
Qed.

Lemma car_run_dropoff (e : Elevator.t) r rest :
  exact (Elevator.passengers e) →
  exact (Elevator.passengers e + 1) →
  exact_request r →
  ∃ log,
    car_run (replicate (dropoff_steps r) (Resume 0))
      (Elevator.mkCar (picked r rest e) [carrying r (picked r rest e)])
    = Some (running (Elevator.processRequests_loop (served r rest e)), log) ∧
    Moving (Elevator.id e) (Request.sourceFloor r)
      (Request.destinationFloor r) :: log
    = dropoff_log (Elevator.id e) r
      ++ logged (Elevator.processRequests_loop (served r rest e)).
Proof.
  intros Hp Hp1 [Hsrc Hdest].
  pose proof (dropoff_served e r rest Hp Hp1) as Hback. cbv zeta in Hback.
  unfold dropoff_steps, dropoff_log, carrying, travel.
  rewrite replicate_S_end.
  unfold Elevator.moveToFloor_test. case_decide as Hdst.
  - eexists. split.
    + eapply car_run_app.
      * apply car_run_travel; [exact Hsrc|exact Hdest|exact Hdst|reflexivity].
      * apply car_run_arrived, Hback.
    + destruct e as [i cap f d q p m x]. cbn.
      by rewrite <- !app_assoc.
  - change (Elevator.currentFloor (picked r rest e))
      with (Request.sourceFloor r) in Hdst.
    replace (Elevator.set_currentFloor (Request.destinationFloor r)
               (picked r rest e))
      with (picked r rest e) in Hback
      by (rewrite <- Hdst; by destruct e).
    unfold floors. rewrite Hdst, Z.sub_diag.
    cbn [Z.abs Z.to_nat replicate app].
    eexists. split.
    + apply car_run_arrived, Hback.
    + destruct e as [i cap f d q p m x]. cbn in *.
      unfold arrivals. rewrite floors_passed_here, Hdst. cbn. done.
Qed.

Lemma car_run_trip (e : Elevator.t) r rest :
  Elevator.requests e = r :: rest →
  exact (Elevator.currentFloor e) →
  exact (Elevator.passengers e) →
  exact (Elevator.passengers e + 1) →
  exact_request r →
  ∃ log,
    car_run
      (replicate (pickup_steps (Elevator.currentFloor e) r + dropoff_steps r)
         (Resume 0))
      (running (Elevator.processRequests_loop e))
    = Some (running (Elevator.processRequests_loop (served r rest e)), log) ∧
    logged (Elevator.processRequests_loop e) ++ log
    = trip_log (Elevator.id e) (Elevator.currentFloor e) r
      ++ logged (Elevator.processRequests_loop (served r rest e)).
Proof.
  intros Hq He Hp Hp1 Hr.
  destruct (car_run_pickup e r rest Hq He (proj1 Hr))
    as (log1 & Hrun1 & Hlog1).
  destruct (car_run_dropoff e r rest Hp Hp1 Hr) as (log2 & Hrun2 & Hlog2).
  exists (log1 ++ log2). split.
  - rewrite replicate_add.
    eapply car_run_app; [exact Hrun1|exact Hrun2].
  - unfold trip_log. rewrite app_assoc, Hlog1, <- !app_assoc.
    f_equal. exact Hlog2.
Qed.

Lemma after_drain_idle rest :
  ∀ r (e : Elevator.t),
    after_drain (r :: rest) e
    = Elevator.mk (Elevator.id e) (Elevator.capacityLimit e)
        (Request.destinationFloor (default r (last rest)))
        IDLE [] (Elevator.passengers e) false (Elevator.mutex e).
Proof.
  induction rest as [|r' rest IH]; intros r e; [done|].
  change (after_drain (r :: r' :: rest) e)
    with (after_drain (r' :: rest) (served r (r' :: rest) e)).
  rewrite IH, (last_cons r' rest). unfold served.
  by destruct (last rest).
Qed.

Lemma car_run_drain queue :
  ∀ e : Elevator.t,
    Elevator.requests e = queue →
    exact (Elevator.currentFloor e) →
    exact (Elevator.passengers e) →
    exact (Elevator.passengers e + 1) →
    Forall exact_request queue →
    ∃ log,
      car_run (replicate (drain_steps (Elevator.currentFloor e) queue)
                 (Resume 0))
        (running (Elevator.processRequests_loop e))
      = Some (Elevator.mkCar (after_drain queue e) [], log) ∧
      logged (Elevator.processRequests_loop e) ++ log
      = drain_log (Elevator.id e) (Elevator.currentFloor e) queue.
Proof.
  induction queue as [|r rest IH]; intros e Hq He Hp Hp1 Hqueue.
  - exists []. unfold Elevator.processRequests_loop. rewrite Hq. done.
  - apply Forall_cons_1 in Hqueue as [Hr Hrest].
    destruct (car_run_trip e r rest Hq He Hp Hp1 Hr) as (log1 & Hrun1 & Hlog1).
    destruct (IH (served r rest e) eq_refl) as (log2 & Hrun2 & Hlog2);
      [apply Hr|done|done|done|].
    exists (log1 ++ log2). split.
    + cbn [drain_steps]. rewrite replicate_add.
      eapply car_run_app; [exact Hrun1|exact Hrun2].
    + cbn [drain_log]. rewrite app_assoc, Hlog1, <- app_assoc. f_equal.
      exact Hlog2.
Qed.





(** ** What holds in every state of an elevator *)

Lemma new_consistent id capacityLimit :
  consistent (Elevator.mkCar (Elevator.new id capacityLimit) []).
Proof. repeat split; simpl; done. Qed.

Lemma next_direction_not_idle r rest :
  Forall constructed (r :: rest) → next_direction (r :: rest) ≠ IDLE.
Proof.
  intros [Hr _]%Forall_cons_1. by apply constructed_not_idle.
Qed.

(** Where the loop of [processRequests] is entered (line 66). *)
Lemma processRequests_loop_settled (e : Elevator.t) :
  Elevator.isMoving e = true →
  Elevator.passengers e = 0 →
  Elevator.direction e = next_direction (Elevator.requests e) →
  Forall constructed (Elevator.requests e) →
  1 ≤ Elevator.capacityLimit e →
  settled (Elevator.processRequests_loop e).1.1
    (Elevator.spawn (Elevator.processRequests_loop e).1.2 []).
Proof.
  destruct e as [i cap f d q p m x]; simpl.
  intros -> -> -> Hq Hcap.
  unfold Elevator.processRequests_loop; simpl.
  destruct q as [|r rest]; simpl.
  - repeat split; simpl; try done; lia.
  - pose proof (next_direction_not_idle _ _ Hq) as Hdir.
    apply Forall_cons_1 in Hq as [Hr Hrest].
    case_decide; simpl; repeat split; simpl; try done; try lia.
    + by constructor.
    + by constructor.
Qed.

Lemma settled_set_mutex b (e : Elevator.t) acts :
  settled (Elevator.set_mutex b e) acts ↔ settled e acts.
Proof. by destruct e. Qed.

Lemma spawn_settle next a :
  settle 0 next [a] = Elevator.spawn next [].
Proof. by destruct next. Qed.

Lemma resume_settled (e : Elevator.t) a :
  settled e [a] →
  settled (Elevator.resume a e).1.1
    (Elevator.spawn (Elevator.resume a e).1.2 []).
Proof.
  intros (Hq & Ha & Hmoving & Hp & Hcap1 & Hdir).
  rewrite Forall_singleton in Ha.
  unfold Elevator.resume.
  destruct a as [r leg [floor|]]; cbn [Elevator.move Elevator.request
    Elevator.leg] in *.
  - rewrite moveToFloor_wake_toward. simpl.
    destruct e as [i cap f d q p m x]; simpl in *.
    repeat split; simpl; try done. by apply Forall_singleton.
  - destruct leg; simpl.
    + destruct e as [i cap f d q p m x]; unfold on_board in Hp; simpl in *.
      subst p. repeat split; simpl; try done. by apply Forall_singleton.
    + rewrite processRequests_dropoff_next. cbv zeta.
      apply processRequests_loop_settled;
        destruct e as [i cap f d q p m x]; unfold on_board in Hp;
        simpl in *; subst; try done; lia.
Qed.

Lemma car_resume_consistent k c c' log :
  consistent c →
  car_resume k c = Some (c', log) →
  consistent c'.
Proof.
  destruct c as [e acts]. intros [Hmutex Hsettled] Hstep.
  unfold car_resume in Hstep; simpl in *.
  destruct acts as [|a [|a' acts]]; [done| |by destruct Hsettled as (_&_&?)].
  destruct k as [|k]; [|done]. simpl in Hstep.
  pose proof (resume_settled e a Hsettled) as Hnext.
  assert (Elevator.mutex (Elevator.resume a e).1.1 = false) as Hfree.
  { unfold Elevator.resume.
    destruct a as [r leg [floor|]]; cbn [Elevator.move Elevator.request
      Elevator.leg].
    - by rewrite moveToFloor_wake_toward.
    - destruct leg; [done|].
      rewrite processRequests_dropoff_next. cbv zeta.
      unfold Elevator.processRequests_loop; simpl.
      destruct (Elevator.requests e) as [|r' rest]; [done|].
      by case_decide. }
  destruct (Elevator.resume a e) as [[e' next] log'].
  injection Hstep as <- <-. rewrite spawn_settle. by split.
Qed.

Lemma sort_for_constructed d l :
  Forall constructed l → Forall constructed (sort_for d l).
Proof.
  intros Hl. destruct (sort_for_sorted d l) as (_ & Hperm & _).
  by rewrite Hperm.
Qed.

Lemma sort_for_singleton d r : sort_for d [r] = [r].
Proof. by destruct d. Qed.

(** [addRequest] with a request of the constructor returns on every
    consistent elevator and leaves it consistent. *)
Lemma addRequest_consistent request c :
  constructed request →
  consistent c →
  ∃ accepted c' log,
    Elevator.addRequest request c = Some (accepted, c', log) ∧
    consistent c'.
Proof.
  destruct c as [e acts]. intros Hreq [Hmutex Hsettled]. simpl in *.
  unfold Elevator.addRequest. simpl. rewrite Hmutex.
  case_decide as Hfull.
  - do 3 eexists. split; [done|]. split; [by destruct e|].
    by apply settled_set_mutex, settled_set_mutex.
  - destruct Hsettled as (Hq & Ha & Hacts).
    assert (Forall constructed (Elevator.requests e ++ [request])) as Hq'
      by (apply Forall_app; split; [done|by apply Forall_singleton]).
    rewrite optimizeRequests_unfold
      by (eapply Forall_impl; [exact Hq'|]; apply constructed_not_idle).
    cbn [mbind option_bind].
    destruct acts as [|a [|a' acts]]; [| |done].
    + destruct Hacts as (Hmoving & Hp & Hd & Hempty).
      destruct e as [i cap f d q p m x]; simpl in *. subst.
      unfold adopted_direction; simpl. rewrite sort_for_singleton.
      unfold Elevator.processRequests, Elevator.set_isMoving,
        Elevator.set_requests, Elevator.set_direction; simpl.
      match goal with
      | |- context [Elevator.processRequests_loop ?e0] =>
          pose proof (processRequests_loop_settled e0) as Hloop;
          destruct (Elevator.processRequests_loop e0) as [[e3 started] log3]
      end.
      simpl in Hloop.
      do 3 eexists. split; [done|]. split; [by destruct e3|].
      apply settled_set_mutex. simpl.
      apply Hloop; try done. lia.
    + destruct Hacts as (Hmoving & Hp & Hcap1 & Hd).
      destruct e as [i cap f d q p m x]; simpl in *. subst.
      unfold adopted_direction; simpl.
      do 3 eexists. split; [done|]. split; [by destruct d|].
      destruct d; [| |done]; simpl.
      * split_and!; try done.
        apply (sort_for_constructed UP), Hq'.
      * split_and!; try done.
        apply (sort_for_constructed DOWN), Hq'.
Qed.

Lemma optimizeRequests_same (e e' : Elevator.t) :
  Elevator.optimizeRequests e = Some e' → same_elevator e e'.
Proof.
  destruct e as [i cap f d q p m x].
  unfold Elevator.optimizeRequests; simpl.
  destruct d; try (by intros [= <-]).
  destruct q as [|first rest]; [by intros [= <-]|]. simpl.
  destruct (Request.direction first); [by intros [= <-]..|done].
Qed.

Lemma processRequests_loop_same (e : Elevator.t) :
  same_elevator e (Elevator.processRequests_loop e).1.1.
Proof.
  destruct e as [i cap f d q p m x].
  unfold Elevator.processRequests_loop; simpl.
  destruct q as [|r rest]; [done|]. simpl. by case_decide.
Qed.

Lemma resume_same a (e : Elevator.t) :
  same_elevator e (Elevator.resume a e).1.1.
Proof.
  unfold Elevator.resume.
  destruct a as [r leg [floor|]]; cbn [Elevator.move Elevator.request
    Elevator.leg].
  - by rewrite moveToFloor_wake_toward.
  - destruct leg; [done|].
    rewrite processRequests_dropoff_next. cbv zeta.
    match goal with
    | |- context [Elevator.processRequests_loop ?e0] =>
        destruct (processRequests_loop_same e0) as [Hid Hcap]
    end.
    split; simpl; [by rewrite Hid|by rewrite Hcap].
Qed.

Lemma addRequest_same request c accepted c' log :
  Elevator.addRequest request c = Some (accepted, c', log) →
  same_elevator (Elevator.this c) (Elevator.this c').
Proof.
  destruct c as [e acts]. unfold Elevator.addRequest; simpl.
  destruct (Elevator.mutex e); [done|].
  case_decide; [by intros [= <- <- <-]|].
  destruct (Elevator.optimizeRequests _) as [e1|] eqn:Hopt; [|done].
  apply optimizeRequests_same in Hopt as [Hid Hcap]. simpl in *.
  destruct (Elevator.isMoving e1).
  - intros [= <- <- <-]. by split.
  - unfold Elevator.processRequests.
    match goal with
    | |- context [Elevator.processRequests_loop ?e0] =>
        destruct (processRequests_loop_same e0) as [Hid' Hcap'];
        destruct (Elevator.processRequests_loop e0) as [[e3 started] log3]
    end.
    intros [= <- <- <-]. simpl in *. split; simpl; congruence.
Qed.

Lemma car_step_same action c c' log :
  car_step action c = Some (c', log) →
  same_elevator (Elevator.this c) (Elevator.this c').
Proof.
  destruct action as [s d|k]; simpl.
  - destruct (Elevator.addRequest _ c) as [[[accepted c1] log1]|] eqn:Hadd;
      [|done].
    intros [= <- <-]. by eapply addRequest_same.
  - unfold car_resume. destruct (Elevator.draining c !! k) as [a|]; [|done].
    simpl. pose proof (resume_same a (Elevator.this c)) as Hsame.
    destruct (Elevator.resume a (Elevator.this c)) as [[e' next] log'].
    by intros [= <- <-].
Qed.

Lemma car_step_consistent action c c' log :
  consistent c →
  car_step action c = Some (c', log) →
  consistent c'.
Proof.
  intros Hc. destruct action as [s d|k]; simpl.
  - destruct (addRequest_consistent (Request.new s d) c)
      as (accepted & c1 & log1 & -> & Hc1); [apply new_constructed|done|].
    by intros [= <- <-].
  - by apply car_resume_consistent.
Qed.

Lemma car_run_invariant schedule :
  ∀ c c' log,
    consistent c →
    car_run schedule c = Some (c', log) →
    consistent c' ∧ same_elevator (Elevator.this c) (Elevator.this c').
Proof.
  induction schedule as [|action later IH]; intros c c' log Hc; simpl.
  - by intros [= <- <-].
  - destruct (car_step action c) as [[c1 log1]|] eqn:Hstep; [|done]. simpl.
    destruct (car_run later c1) as [[c2 log2]|] eqn:Hlater; [|done]. simpl.
    intros [= <- <-].
    pose proof (car_step_consistent _ _ _ _ Hc Hstep) as Hc1.
    destruct (car_step_same _ _ _ _ Hstep) as [Hid1 Hcap1].
    destruct (IH _ _ _ Hc1 Hlater) as [Hc2 [Hid2 Hcap2]].
    split; [done|]. split; congruence.
Qed.

Lemma reachable_consistent id capacityLimit c :
  Reachable id capacityLimit c →
  consistent c ∧
  Elevator.id (Elevator.this c) = id ∧
  Elevator.capacityLimit (Elevator.this c) = capacityLimit.
Proof.
  intros (schedule & log & Hrun).
  by apply car_run_invariant in Hrun; [|apply new_consistent].
Qed.

(** C4: in every state that an elevator with a capacity of zero or more
    reaches by calls of [addRequest] and by steps of its drain, in any
    order, the number of passengers is at least zero and at most the
    capacity (it is zero or one); no call of [addRequest] is ever kept
    waiting or lost on the way to such a state, and at most one call of
    [processRequests] is under way. *)
Theorem passengers_within_capacity (id capacityLimit : Z) (c : Elevator.car) :
  0 ≤ capacityLimit →
  Reachable id capacityLimit c →
  0 ≤ Elevator.passengers (Elevator.this c)
    ≤ Elevator.capacityLimit (Elevator.this c) ∧
  Elevator.capacityLimit (Elevator.this c) = capacityLimit ∧
  (length (Elevator.draining c) ≤ 1)%nat ∧
  ∀ sourceFloor destinationFloor,
    ∃ c' log,
      car_step (Call sourceFloor destinationFloor) c = Some (c', log) ∧
      Reachable id capacityLimit c'.
Proof.
  intros Hcap Hreach.
  destruct (reachable_consistent _ _ _ Hreach) as (Hc & Hid & Hsame).
  split_and!; [| |done| |].
  - destruct Hc as (_ & _ & _ & Hacts).
    destruct (Elevator.draining c) as [|a [|a' acts]]; [| |done].
    + destruct Hacts as (_ & -> & _). lia.
    + destruct Hacts as (_ & -> & _). unfold on_board.
      destruct (Elevator.leg a); lia.
  - destruct Hc as (_ & _ & _ & Hacts).
    destruct (Elevator.draining c) as [|a [|a' acts]]; [| |done].
    + destruct Hacts as (_ & -> & _). lia.
    + destruct Hacts as (_ & -> & Hone & _). unfold on_board.
      destruct (Elevator.leg a); lia.
  - destruct Hc as (_ & _ & _ & Hacts).
    destruct (Elevator.draining c) as [|a [|a' acts]]; simpl; [lia..|done].
  - intros s d.
    destruct (addRequest_consistent (Request.new s d) c)
      as (accepted & c1 & log1 & Hadd & Hc1); [apply new_constructed|done|].
    exists c1, log1. simpl. rewrite Hadd. split; [done|].
    destruct Hreach as (schedule & log & Hrun).
    exists (schedule ++ [Call s d]), (log ++ (log1 ++ [])).
    eapply car_run_app; [exact Hrun|]. simpl. by rewrite Hadd.
Qed.

(** ** [addRequest] at capacity *)

(** C3: called on an elevator that is full, [addRequest] returns [false]
    as an ordinary result, logs the refusal, and leaves every field of the
    elevator and its suspended activations as they were.  This holds for
    any elevator a call can get past lines 29-31 on (the flag is free), and
    so in every state an elevator can reach. *)
Theorem addRequest_rejects_at_capacity :
  (∀ (request : Request.t) (c : Elevator.car),
     Elevator.mutex (Elevator.this c) = false →
     Elevator.passengers (Elevator.this c)
       >= Elevator.capacityLimit (Elevator.this c) →
     Elevator.addRequest request c
     = Some (false, c, [AtCapacity (Elevator.id (Elevator.this c))])) ∧
  (∀ id capacityLimit (request : Request.t) (c : Elevator.car),
     Reachable id capacityLimit c →
     Elevator.passengers (Elevator.this c) >= capacityLimit →
     Elevator.addRequest request c = Some (false, c, [AtCapacity id])).
Proof.
  assert (∀ (request : Request.t) (c : Elevator.car),
            Elevator.mutex (Elevator.this c) = false →
            Elevator.passengers (Elevator.this c)
              >= Elevator.capacityLimit (Elevator.this c) →
            Elevator.addRequest request c
            = Some (false, c, [AtCapacity (Elevator.id (Elevator.this c))]))
    as Hfree.
  { intros request [[i cap f d q p m x] acts]; simpl.
    intros -> Hfull. unfold Elevator.addRequest; simpl.
    by case_decide. }
  split; [exact Hfree|].
  intros id capacityLimit request c Hreach Hfull.
  destruct (reachable_consistent _ _ _ Hreach) as ([Hmutex _] & Hid & Hcap).
  rewrite <- Hid. apply Hfree; [done|]. by rewrite Hcap.
Qed.

(** ** The order of the queue over time *)

(** A call of [addRequest] that is accepted leaves the queue in the order
    of the direction of the elevator. *)
Lemma addRequest_in_order request c accepted c' log :
  constructed request →
  consistent c →
  Elevator.addRequest request c = Some (accepted, c', log) →
  accepted = true →
  in_order (Elevator.direction (Elevator.this c'))
    (Elevator.requests (Elevator.this c')).
Proof.
  destruct c as [e acts]. intros Hreq [Hmutex Hsettled]. simpl in *.
  unfold Elevator.addRequest. simpl. rewrite Hmutex.
  case_decide as Hfull; [by intros [= <- <- <-]|].
  destruct Hsettled as (Hq & Ha & Hacts).
  assert (Forall constructed (Elevator.requests e ++ [request])) as Hq'
    by (apply Forall_app; split; [done|by apply Forall_singleton]).
  rewrite optimizeRequests_unfold
    by (eapply Forall_impl; [exact Hq'|]; apply constructed_not_idle).
  cbn [mbind option_bind].
  destruct acts as [|a [|a' acts]]; [| |done].
  - destruct Hacts as (Hmoving & Hp & Hd & Hempty).
    destruct e as [i cap f d q p m x]; simpl in *. subst.
    unfold adopted_direction; simpl. rewrite sort_for_singleton.
    unfold Elevator.processRequests, Elevator.processRequests_loop; simpl.
    case_decide; intros [= <- <- <-] _; simpl; constructor.
  - destruct Hacts as (Hmoving & Hp & Hcap1 & Hd).
    destruct e as [i cap f d q p m x]; simpl in *. subst.
    unfold adopted_direction; simpl.
    intros [= <- <- <-] _. simpl.
    destruct d; [| |done]; simpl.
    + apply (sort_for_sorted UP).
    + apply (sort_for_sorted DOWN).
Qed.

(** C5, evaluated: in the run of the demo all five requests go to the
    first elevator; when it has let off its first passenger at floor 5 it
    takes the direction DOWN of the request now first and sets off for
    floor 7, while the requests left in its queue have the destinations
    1, 2, 10, the ascending order in which the calls of [addRequest] had
    sorted them: a reachable state whose queue is not in the order of the
    direction. *)
Theorem queue_order_lost_after_trip :
  ∃ c others log,
    demo_after_first_trip = Some (c :: others, log) ∧
    Reachable 1 5 c ∧
    car_run first_trip_schedule (Elevator.mkCar (Elevator.new 1 5) [])
    = Some (c, log) ∧
    Elevator.direction (Elevator.this c) = DOWN ∧
    Request.destinationFloor <$> Elevator.requests (Elevator.this c)
    = [1; 2; 10] ∧
    ¬ in_order (Elevator.direction (Elevator.this c))
        (Elevator.requests (Elevator.this c)).
Proof.
  do 3 eexists. split; [vm_compute; reflexivity|].
  split_and!.
  - eexists first_trip_schedule, _. vm_compute. reflexivity.
  - vm_compute. reflexivity.
  - reflexivity.
  - reflexivity.
  - simpl. intros Hsorted.
    apply StronglySorted_inv in Hsorted as [_ Hfirst].
    apply Forall_cons_1 in Hfirst as [Hfirst _].
    simpl in Hfirst. lia.
Qed.

(** ** Requests are not altered *)

(** Membership in lists built with [++] and [::]. *)
Ltac list_members :=
  set_unfold; simpl in *;
  intuition (subst; eauto).

Lemma optimizeRequests_perm (e e' : Elevator.t) :
  Elevator.optimizeRequests e = Some e' →
  Elevator.requests e' ≡ₚ Elevator.requests e.
Proof.
  destruct e as [i cap f d q p m x].
  unfold Elevator.optimizeRequests; simpl.
  destruct d; try (intros [= <-]; simpl; apply array_sort_perm).
  destruct q as [|first rest]; [by intros [= <-]|]. simpl.
  destruct (Request.direction first); [| |done];
    intros [= <-]; simpl; apply (array_sort_perm _ (first :: rest)).
Qed.

Lemma processRequests_loop_held (e : Elevator.t) :
  held_with (Elevator.processRequests_loop e).1.2
    (Elevator.processRequests_loop e).1.1
  = Elevator.requests e.
Proof.
  destruct e as [i cap f d q p m x].
  unfold Elevator.processRequests_loop; simpl.
  destruct q as [|r rest]; [done|]. simpl. by case_decide.
Qed.

Lemma resume_held a (e : Elevator.t) :
  held_with (Elevator.resume a e).1.2 (Elevator.resume a e).1.1
  ⊆ Elevator.request a :: Elevator.requests e.
Proof.
  unfold Elevator.resume.
  destruct a as [r leg [floor|]]; cbn [Elevator.move Elevator.request
    Elevator.leg].
  - by rewrite moveToFloor_wake_toward.
  - destruct leg; [done|].
    rewrite processRequests_dropoff_next. cbv zeta.
    cbn [fst snd]. rewrite processRequests_loop_held.
    destruct e as [i cap f d q p m x]; simpl. list_members.
Qed.

Lemma car_resume_held k c c' log :
  consistent c →
  car_resume k c = Some (c', log) →
  held c' ⊆ held c.
Proof.
  destruct c as [e acts]. intros [_ (_ & _ & Hacts)] Hstep.
  unfold car_resume in Hstep; simpl in *.
  destruct acts as [|a [|a' acts]]; [done| |done].
  destruct k as [|k]; [|done]. simpl in Hstep.
  pose proof (resume_held a e) as Hheld.
  destruct (Elevator.resume a e) as [[e' next] log'].
  injection Hstep as <- <-. rewrite spawn_settle.
  unfold held; simpl in *. by destruct next.
Qed.

Lemma addRequest_held request c accepted c' log :
  consistent c →
  Elevator.addRequest request c = Some (accepted, c', log) →
  held c' ⊆ held c ++ [request].
Proof.
  destruct c as [e acts]. intros [_ (_ & _ & Hacts)].
  unfold Elevator.addRequest, held; simpl.
  destruct (Elevator.mutex e); [done|].
  case_decide; [intros [= <- <- <-]; simpl; list_members|].
  destruct (Elevator.optimizeRequests _) as [e1|] eqn:Hopt; [|done].
  apply optimizeRequests_perm in Hopt. simpl in *.
  destruct (Elevator.isMoving e1).
  - intros [= <- <- <-]. simpl. rewrite Hopt. list_members.
  - unfold Elevator.processRequests.
    match goal with
    | |- context [Elevator.processRequests_loop ?e0] =>
        pose proof (processRequests_loop_held e0) as Hloop;
        destruct (Elevator.processRequests_loop e0) as [[e3 started] log3]
    end.
    intros [= <- <- <-]. simpl in *.
    assert (held_with started e3 ≡ₚ Elevator.requests e ++ [request])
      as Hsame by (by rewrite Hloop).
    assert (∀ r, r ∈ held_with started e3
                 ↔ r ∈ Elevator.requests e ++ [request]) as Hin
      by (intros r; by rewrite Hsame).
    intros r. specialize (Hin r). clear Hsame Hloop Hopt.
    destruct started as [a|]; simpl in *.
    + rewrite fmap_app. simpl. list_members.
    + list_members.
Qed.

Lemma submitted_cons action later :
  submitted (action :: later) = submitted [action] ++ submitted later.
Proof. by destruct action. Qed.

Lemma car_run_held schedule :
  ∀ c c' log,
    consistent c →
    car_run schedule c = Some (c', log) →
    held c' ⊆ held c ++ submitted schedule.
Proof.
  induction schedule as [|action later IH]; intros c c' log Hc Hrun.
  - injection Hrun as <- <-. unfold submitted; simpl. list_members.
  - simpl in Hrun.
    destruct (car_step action c) as [[c1 log1]|] eqn:Hstep; [|done].
    simpl in Hrun.
    destruct (car_run later c1) as [[c2 log2]|] eqn:Hlater; [|done].
    injection Hrun as <- <-.
    pose proof (car_step_consistent _ _ _ _ Hc Hstep) as Hc1.
    specialize (IH _ _ _ Hc1 Hlater).
    assert (held c1 ⊆ held c ++ submitted [action]) as Hfirst.
    { destruct action as [s d|k]; simpl in Hstep.
      - destruct (Elevator.addRequest _ c) as [[[accepted c0] log0]|] eqn:Hadd;
          [|done].
        injection Hstep as <- <-. by eapply addRequest_held.
      - apply car_resume_held in Hstep; [|done].
        unfold submitted; simpl. list_members. }
    rewrite (submitted_cons action later).
    intros r Hr. apply IH, elem_of_app in Hr as [Hr|Hr].
    + apply Hfirst, elem_of_app in Hr as [Hr|Hr];
        rewrite !elem_of_app; auto.
    + rewrite !elem_of_app; auto.
Qed.

(** C7: for distinct integer floors the constructor stores its two
    arguments unchanged and derives the direction from them, UP exactly
    when the destination lies above the source and DOWN exactly when it
    lies below; and nothing alters a request afterwards: whatever an
    elevator holds, in service or in its queue, is one of the requests
    built for the calls made on it, field for field. *)
Theorem request_direction_derived_and_kept :
  (∀ sourceFloor destinationFloor : Z,
     sourceFloor ≠ destinationFloor →
     let r := Request.new sourceFloor destinationFloor in
     Request.sourceFloor r = sourceFloor ∧
     Request.destinationFloor r = destinationFloor ∧
     (Request.direction r = UP ↔ destinationFloor > sourceFloor) ∧
     (Request.direction r = DOWN ↔ ¬ destinationFloor > sourceFloor) ∧
     (Request.direction r = DOWN ↔ destinationFloor < sourceFloor)) ∧
  (∀ id capacityLimit schedule c log,
     car_run schedule (Elevator.mkCar (Elevator.new id capacityLimit) [])
     = Some (c, log) →
     held c ⊆ submitted schedule ∧ Forall constructed (held c)).
Proof.
  split.
  - intros s d Hne r. subst r. unfold Request.new; simpl.
    case_decide; repeat split; intros; try done; lia.
  - intros id capacityLimit schedule c log Hrun.
    pose proof (car_run_held _ _ _ _ (new_consistent id capacityLimit) Hrun)
      as Hheld.
    change (held c ⊆ submitted schedule) in Hheld.
    split; [done|].
    apply Forall_forall. intros r Hr. apply Hheld in Hr.
    apply list_elem_of_omap in Hr as ([s d|k] & _ & Hr); [|done].
    injection Hr as <-. apply new_constructed.
Qed.

(** ** Instances *)

Lemma handleRequest_selects_nearest_eligible_witness :
  ((∀ position : nat,
      ElevatorController.findOptimalElevator bank_0_3_7 (Request.new 2 6)
      = Some position
      ↔ nearest_by_floors (Request.new 2 6) (Elevator.this <$> bank_0_3_7)
          position) ∧
   (ElevatorController.findOptimalElevator bank_0_3_7 (Request.new 2 6) = None
    ↔ Forall (λ c, ¬ eligible (Elevator.this c)) bank_0_3_7) ∧
   (∀ position c,
      nearest_by_floors (Request.new 2 6) (Elevator.this <$> bank_0_3_7)
        position →
      bank_0_3_7 !! position = Some c →
      ElevatorController.handleRequest (Request.new 2 6) bank_0_3_7
      = '(_, c', log) ← Elevator.addRequest (Request.new 2 6) c;
        Some (<[position := c']> bank_0_3_7, log))) ∧
  ElevatorController.findOptimalElevator bank_0_3_7 (Request.new 2 6)
  = Some 1%nat.
Proof.
  destruct handleRequest_selects_nearest_eligible as [Hfound Hexample].
  split.
  - apply (Hfound bank_0_3_7 (Request.new 2 6)).
    split; [|repeat constructor]; unfold near; simpl; lia.
  - apply Hexample; unfold eligible; simpl; first [reflexivity|lia].
Defined.

Lemma optimizeRequests_sorts_for_direction_witness :
  (∃ e',
     Elevator.optimizeRequests idle_with_5_2_9 = Some e' ∧
     Elevator.direction e' = adopted_direction idle_with_5_2_9 ∧
     sorted_from (adopted_direction idle_with_5_2_9)
       (Elevator.requests idle_with_5_2_9) (Elevator.requests e') ∧
     e' = Elevator.set_requests (Elevator.requests e')
            (Elevator.set_direction (Elevator.direction e')
               idle_with_5_2_9)) ∧
  Elevator.optimizeRequests up_with_5_2_9
  = Some (Elevator.set_requests
            [Request.new 0 2; Request.new 0 5; Request.new 0 9]
            up_with_5_2_9) ∧
  Elevator.optimizeRequests (Elevator.set_direction DOWN up_with_5_2_9)
  = Some (Elevator.set_requests
            [Request.new 0 9; Request.new 0 5; Request.new 0 2]
            (Elevator.set_direction DOWN up_with_5_2_9)).
Proof.
  destruct optimizeRequests_sorts_for_direction as [Hgeneral Hexample].
  split_and!.
  - apply Hgeneral. simpl. repeat constructor.
  - by apply (Hexample up_with_5_2_9 (Request.new 0 5)
                (Request.new 0 2) (Request.new 0 9)).
  - by apply (Hexample (Elevator.set_direction DOWN up_with_5_2_9)
                (Request.new 0 5) (Request.new 0 2) (Request.new 0 9)).
Defined.

Lemma addRequest_rejects_at_capacity_witness :
  Elevator.addRequest (Request.new 0 3) full_car
  = Some (false, full_car, [AtCapacity 1]) ∧
  Elevator.addRequest (Request.new 0 3) full_car
  = Some (false, full_car,
          [AtCapacity (Elevator.id (Elevator.this full_car))]).
Proof.
  destruct addRequest_rejects_at_capacity as [Hfree Hreached].
  split.
  - apply (Hreached 1 1 (Request.new 0 3) full_car).
    + exists [Call 0 5], [PickedUp 1 0; Moving 1 0 5]. reflexivity.
    + simpl. lia.
  - apply (Hfree (Request.new 0 3) full_car); [reflexivity|simpl; lia].
Defined.

Lemma passengers_within_capacity_witness :
  0 ≤ Elevator.passengers (Elevator.this full_car)
    ≤ Elevator.capacityLimit (Elevator.this full_car).
Proof.
  assert (Reachable 1 1 full_car) as Hreach
    by (exists [Call 0 5], [PickedUp 1 0; Moving 1 0 5]; reflexivity).
  assert (0 ≤ 1) as Hcap by lia.
  exact (proj1 (passengers_within_capacity 1 1 full_car Hcap Hreach)).
Defined.


Lemma request_direction_derived_and_kept_witness :
  (let r := Request.new 3 10 in
   Request.sourceFloor r = 3 ∧
   Request.destinationFloor r = 10 ∧
   (Request.direction r = UP ↔ 10 > 3) ∧
   (Request.direction r = DOWN ↔ ¬ 10 > 3) ∧
   (Request.direction r = DOWN ↔ 10 < 3)) ∧
  held full_car ⊆ submitted [Call 0 5] ∧ Forall constructed (held full_car).
Proof.
  destruct request_direction_derived_and_kept as [Hnew Hkept].
  split.
  - apply (Hnew 3 10). lia.
  - apply (Hkept 1 1 [Call 0 5] full_car [PickedUp 1 0; Moving 1 0 5]).
    reflexivity.
Defined.

Lemma handleRequest_all_full_unserved_witness :
  ElevatorController.findOptimalElevator [full_car; full_car] (Request.new 2 6)
  = None ∧
  ElevatorController.handleRequest (Request.new 2 6) [full_car; full_car]
  = Some ([full_car; full_car], [NoAvailable]).
Proof.
  apply (handleRequest_all_full_unserved (Request.new 2 6)
           [full_car; full_car]).
  repeat constructor; simpl; lia.
Defined.

Lemma moveToFloor_terminates_at_floor_witness :
  (∃ next,
     Elevator.moveToFloor_wake 3 (Elevator.new 1 5)
     = (Elevator.set_currentFloor next (Elevator.new 1 5),
        Elevator.moveToFloor_test 3
          (Elevator.set_currentFloor next (Elevator.new 1 5)),
        [Arrived 1 next]) ∧
     Elevator.currentFloor
       (Elevator.moveToFloor_wake 3 (Elevator.new 1 5)).1.1 = next ∧
     (0 < 3 → next = 0 + 1) ∧
     (0 > 3 → next = 0 - 1) ∧
     Z.abs (next - 3) = Z.abs (0 - 3) - 1 ∧
     Z.abs (next - 3) < Z.abs (0 - 3)) ∧
  (∃ e',
     Elevator.moveToFloor 3 3 (Elevator.new 1 5)
     = Some (e', Moving 1 0 3 :: arrivals 1 0 3) ∧
     Elevator.currentFloor e' = 3 ∧
     Elevator.id e' = 1 ∧
     Elevator.capacityLimit e' = 5 ∧
     Elevator.direction e' = IDLE ∧
     Elevator.requests e' = [] ∧
     Elevator.passengers e' = 0 ∧
     Elevator.isMoving e' = false ∧
     Elevator.mutex e' = false).
Proof.
  assert (exact (Elevator.currentFloor (Elevator.new 1 5))) as Hhere
    by (unfold exact; simpl; lia).
  assert (exact 3) as Hfloor by (unfold exact; lia).
  destruct (moveToFloor_terminates_at_floor (Elevator.new 1 5) 3 Hhere Hfloor)
    as [Hturn Hreturns].
  split.
  - apply Hturn. simpl. lia.
  - apply (Hreturns 3%nat). simpl. lia.
Defined.

(** * Further properties *)

(** ** The shape of the steps *)

Lemma processRequests_loop_cons (e : Elevator.t) r rest :
  Elevator.requests e = r :: rest →
  Elevator.processRequests_loop e
  = if decide (Elevator.currentFloor e ≠ Request.sourceFloor r)
    then (Elevator.set_requests rest e,
          Some (Elevator.mkActivation r Elevator.ToSource
                  (Elevator.Sleeping (Request.sourceFloor r))),
          [Moving (Elevator.id e) (Elevator.currentFloor e)
             (Request.sourceFloor r)])
    else (Elevator.set_passengers (double (Elevator.passengers e + 1))
            (Elevator.set_requests rest e),
          Some (carrying r
                  (Elevator.set_passengers (double (Elevator.passengers e + 1))
                     (Elevator.set_requests rest e))),
          [PickedUp (Elevator.id e) (Elevator.currentFloor e);
           Moving (Elevator.id e) (Elevator.currentFloor e)
             (Request.destinationFloor r)]).
Proof.
  destruct e as [i cap f d q p m x]; simpl. intros ->.
  unfold Elevator.processRequests_loop; simpl.
  case_decide as Hsrc; [|done].
  unfold Elevator.moveToFloor_test; simpl. by rewrite decide_True.
Qed.

(** [addRequest] on an elevator at rest, and on one that is moving. *)
Lemma addRequest_idle request (e : Elevator.t) :
  constructed request →
  consistent (Elevator.mkCar e []) →
  ¬ Elevator.passengers e >= Elevator.capacityLimit e →
  Elevator.addRequest request (Elevator.mkCar e [])
  = let s :=
      Elevator.processRequests_loop
        (Elevator.set_isMoving true
           (Elevator.set_requests [request]
              (Elevator.set_direction (Request.direction request)
                 (Elevator.set_mutex true e)))) in
    Some (true, Elevator.mkCar (Elevator.set_mutex false s.1.1)
                  (Elevator.spawn s.1.2 []), s.2).
Proof.
  intros Hreq [Hmutex (Hq & _ & Hmoving & Hp & Hd & Hempty)] Hroom.
  destruct e as [i cap f d q p m x]; simpl in *. subst.
  unfold Elevator.addRequest; simpl. rewrite decide_False by done.
  rewrite optimizeRequests_unfold; simpl;
    [|by apply Forall_singleton, constructed_not_idle].
  unfold adopted_direction; simpl. rewrite sort_for_singleton.
  unfold Elevator.processRequests, Elevator.set_isMoving,
    Elevator.set_requests, Elevator.set_direction; simpl.
  by destruct (Elevator.processRequests_loop _) as [[e3 started] log3].
Qed.

Lemma addRequest_moving request (e : Elevator.t) a :
  constructed request →
  consistent (Elevator.mkCar e [a]) →
  ¬ Elevator.passengers e >= Elevator.capacityLimit e →
  Elevator.addRequest request (Elevator.mkCar e [a])
  = Some (true,
          Elevator.mkCar
            (Elevator.set_requests
               (sort_for (Elevator.direction e)
                  (Elevator.requests e ++ [request])) e) [a],
          []).
Proof.
  intros Hreq [Hmutex (Hq & _ & Hmoving & Hp & Hcap & Hd)] Hroom.
  destruct e as [i cap f d q p m x]; simpl in *. subst.
  unfold Elevator.addRequest; simpl. rewrite decide_False by done.
  rewrite optimizeRequests_unfold; simpl.
  - unfold adopted_direction; simpl. by destruct d.
  - apply Forall_app. split.
    + eapply Forall_impl; [exact Hq|]. apply constructed_not_idle.
    + by apply Forall_singleton, constructed_not_idle.
Qed.

(** ** The elevator follows the request in service *)

Lemma monotone_tail r rest : monotone (r :: rest) → monotone rest.
Proof.
  intros [H|H]; apply StronglySorted_inv in H as [H _]; [by left|by right].
Qed.

Lemma monotone_sort_for d l : d ≠ IDLE → monotone (sort_for d l).
Proof.
  intros Hd. destruct d; [left|right|done].
  - apply (sort_for_sorted UP).
  - apply (sort_for_sorted DOWN).
Qed.

Lemma processRequests_loop_course (e : Elevator.t) :
  Elevator.direction e = next_direction (Elevator.requests e) →
  monotone (Elevator.requests e) →
  Forall (on_course (Elevator.processRequests_loop e).1.1)
    (Elevator.spawn (Elevator.processRequests_loop e).1.2 []) ∧
  monotone (Elevator.requests (Elevator.processRequests_loop e).1.1).
Proof.
  intros Hd Hq.
  destruct (Elevator.requests e) as [|r rest] eqn:Heq.
  - unfold Elevator.processRequests_loop. rewrite Heq. simpl.
    split; [constructor|]. by rewrite Heq.
  - rewrite (processRequests_loop_cons e r rest Heq).
    apply monotone_tail in Hq.
    destruct e as [i cap f d q p m x]; simpl in *. subst.
    case_decide as Hsrc; simpl.
    + split; [|done]. apply Forall_singleton. by split.
    + split; [|done]. apply Forall_singleton.
      split; [done|]. unfold carrying, Elevator.moveToFloor_test; simpl.
      case_decide; simpl; unfold target; simpl; [done|congruence].
Qed.

Lemma resume_course (e : Elevator.t) a :
  Elevator.passengers e = on_board a →
  on_course e a →
  monotone (Elevator.requests e) →
  Forall (on_course (Elevator.resume a e).1.1)
    (Elevator.spawn (Elevator.resume a e).1.2 []) ∧
  monotone (Elevator.requests (Elevator.resume a e).1.1).
Proof.
  intros Hp [Hd Hmove] Hq. unfold Elevator.resume.
  destruct a as [r leg [floor|]]; cbn [Elevator.move Elevator.request
    Elevator.leg] in *.
  - rewrite moveToFloor_wake_toward. simpl.
    destruct Hmove as [-> Hne].
    split; [|done]. apply Forall_singleton. split; [done|].
    unfold Elevator.moveToFloor_test; simpl.
    case_decide as Hthere; simpl; [done|].
    by destruct e.
  - unfold target in Hmove; simpl in Hmove. destruct leg; simpl.
    + split; [|done]. apply Forall_singleton.
      split; [by destruct e|].
      unfold Elevator.moveToFloor_test; simpl.
      case_decide; simpl; unfold target; simpl; [by destruct e|].
      by destruct e.
    + rewrite processRequests_dropoff_next. cbv zeta.
      apply processRequests_loop_course; by destruct e.
Qed.

Lemma car_resume_steady k c c' log :
  steady c →
  car_resume k c = Some (c', log) →
  steady c'.
Proof.
  intros (Hc & Hcourse & Hq) Hstep.
  split; [by eapply car_resume_consistent|].
  destruct c as [e acts]. destruct Hc as [_ (_ & _ & Hacts)].
  unfold car_resume in Hstep; simpl in *.
  destruct acts as [|a [|a' acts]]; [done| |done].
  destruct k as [|k]; [|done]. simpl in Hstep.
  destruct Hacts as (_ & Hp & _).
  rewrite Forall_singleton in Hcourse.
  pose proof (resume_course e a Hp Hcourse Hq) as Hnext.
  destruct (Elevator.resume a e) as [[e' next] log'].
  injection Hstep as <- <-. by rewrite spawn_settle.
Qed.

Lemma addRequest_steady request c accepted c' log :
  constructed request →
  steady c →
  Elevator.addRequest request c = Some (accepted, c', log) →
  steady c'.
Proof.
  intros Hreq (Hc & Hcourse & Hq) Hadd.
  split.
  { destruct (addRequest_consistent request c Hreq Hc)
      as (? & ? & ? & Hadd' & Hc').
    rewrite Hadd in Hadd'. by injection Hadd' as <- <- <-. }
  destruct c as [e acts]; simpl in *.
  destruct (decide (Elevator.passengers e >= Elevator.capacityLimit e))
    as [Hfull|Hroom].
  - pose proof Hc as [Hmutex _]. simpl in Hmutex.
    unfold Elevator.addRequest in Hadd; simpl in Hadd.
    rewrite Hmutex, decide_True in Hadd by done.
    injection Hadd as <- <- <-. simpl. by destruct e.
  - pose proof Hc as [_ (_ & _ & Hacts)]. simpl in Hacts.
    destruct acts as [|a [|a' acts]]; [| |done].
    + rewrite (addRequest_idle request e Hreq Hc Hroom) in Hadd.
      cbv zeta in Hadd. injection Hadd as <- <- <-. simpl.
      match goal with
      | |- context [Elevator.processRequests_loop ?e0] =>
          destruct (processRequests_loop_course e0) as [Hcourse' Hq']
      end; [done|left; repeat constructor|].
      split; [|by destruct (Elevator.processRequests_loop _) as [[[] ?] ?]].
      eapply Forall_impl; [exact Hcourse'|].
      intros a. by destruct (Elevator.processRequests_loop _) as [[[] ?] ?].
    + rewrite (addRequest_moving request e a Hreq Hc Hroom) in Hadd.
      injection Hadd as <- <- <-. simpl.
      destruct Hacts as (_ & _ & _ & Hd).
      split; [by destruct e|].
      destruct e; simpl in *. by apply monotone_sort_for.
Qed.

Lemma car_step_steady action c c' log :
  steady c →
  car_step action c = Some (c', log) →
  steady c'.
Proof.
  intros Hc. destruct action as [s d|k]; simpl.
  - destruct (Elevator.addRequest _ c) as [[[accepted c1] log1]|] eqn:Hadd;
      [|done].
    intros [= <- <-]. eapply addRequest_steady; [apply new_constructed|done..].
  - by apply car_resume_steady.
Qed.

Lemma car_run_steady schedule :
  ∀ c c' log,
    steady c →
    car_run schedule c = Some (c', log) →
    steady c'.
Proof.
  induction schedule as [|action later IH]; intros c c' log Hc; simpl.
  - by intros [= <- <-].
  - destruct (car_step action c) as [[c1 log1]|] eqn:Hstep; [|done]. simpl.
    destruct (car_run later c1) as [[c2 log2]|] eqn:Hlater; [|done]. simpl.
    intros [= <- <-]. eapply IH; [|done]. by eapply car_step_steady.
Qed.

Lemma new_steady id capacityLimit :
  steady (Elevator.mkCar (Elevator.new id capacityLimit) []).
Proof.
  split; [apply new_consistent|]. split; [constructor|]. left. constructor.
Qed.

Lemma reachable_steady id capacityLimit c :
  Reachable id capacityLimit c → steady c.
Proof.
  intros (schedule & log & Hrun).
  eapply car_run_steady; [apply new_steady|done].
Qed.

(** X1: between its steps an elevator is either at rest (no call of
    [processRequests] under way, [isMoving] false, direction IDLE, empty
    queue, nobody on board) or has exactly one call of [processRequests]
    under way, with [isMoving] true and a direction other than IDLE; the
    flag [mutex] is never left set, so the loop of lines 29-31 never
    waits. *)
Theorem elevator_at_rest_or_draining (id capacityLimit : Z) (c : Elevator.car) :
  Reachable id capacityLimit c →
  Elevator.mutex (Elevator.this c) = false ∧
  (Elevator.isMoving (Elevator.this c) = false ↔ Elevator.draining c = []) ∧
  (Elevator.direction (Elevator.this c) = IDLE ↔ Elevator.draining c = []) ∧
  (Elevator.draining c = [] → at_rest c) ∧
  (Elevator.draining c ≠ [] → ∃ a, Elevator.draining c = [a]).
Proof.
  intros Hreach.
  destruct (reachable_consistent _ _ _ Hreach) as ([Hmutex Hs] & _ & _).
  destruct Hs as (_ & _ & Hacts).
  destruct (Elevator.draining c) as [|a [|a' acts]] eqn:Hd; [| |done].
  - destruct Hacts as (Hm & Hp & Hdir & Hq).
    split_and!; try done; intros _; by repeat split.
  - destruct Hacts as (Hm & Hp & Hcap & Hdir).
    split_and!; try done; try (rewrite Hm; split; done);
      intros _; by exists a.
Qed.

(** X2: while a request is in service the direction of the elevator is the
    direction of that request (source to destination), also on the way to
    its source floor, and the move under way is a move to the source floor
    before the pickup and to the destination floor after it; a move that
    has returned has left the elevator on that floor. *)
Theorem direction_and_target_of_request_in_service
    (id capacityLimit : Z) (c : Elevator.car) (a : Elevator.Activation) :
  Reachable id capacityLimit c →
  a ∈ Elevator.draining c →
  Elevator.direction (Elevator.this c)
  = Request.direction (Elevator.request a) ∧
  match Elevator.move a with
  | Elevator.Sleeping floor =>
      floor = target a ∧ Elevator.currentFloor (Elevator.this c) ≠ floor
  | Elevator.Finished => Elevator.currentFloor (Elevator.this c) = target a
  end.
Proof.
  intros Hreach Ha.
  destruct (reachable_steady _ _ _ Hreach) as (_ & Hcourse & _).
  rewrite Forall_forall in Hcourse. exact (Hcourse a Ha).
Qed.

(** X4: the queue of an elevator is always sorted by destination floor,
    ascending or descending; right after a call of [addRequest] that was
    accepted it is sorted in the order of the direction of the elevator. *)
Theorem queue_sorted_one_way (id capacityLimit : Z) (c : Elevator.car) :
  Reachable id capacityLimit c →
  monotone (Elevator.requests (Elevator.this c)) ∧
  ∀ sourceFloor destinationFloor c' log,
    Elevator.addRequest (Request.new sourceFloor destinationFloor) c
    = Some (true, c', log) →
    in_order (Elevator.direction (Elevator.this c'))
      (Elevator.requests (Elevator.this c')).
Proof.
  intros Hreach.
  destruct (reachable_steady _ _ _ Hreach) as (Hc & _ & Hq).
  split; [done|].
  intros s d c' log Hadd.
  by eapply addRequest_in_order; [apply new_constructed|exact Hc|exact Hadd|].
Qed.

(** ** Where passengers get on and off *)

(** Membership in a log written out. *)
Ltac in_log :=
  repeat match goal with
         | H : _ ∈ _ :: _ |- _ => apply elem_of_cons in H as [H|H]
         | H : _ ∈ [] |- _ => by apply elem_of_nil in H
         | H : _ ∈ _ ++ _ |- _ => apply elem_of_app in H as [H|H]
         end;
  try discriminate.

Lemma processRequests_loop_log (e : Elevator.t) :
  (∀ i f, PickedUp i f ∈ (Elevator.processRequests_loop e).2 →
     ∃ a, (Elevator.processRequests_loop e).1.2 = Some a ∧
          Elevator.leg a = Elevator.ToDestination ∧
          i = Elevator.id e ∧
          f = Request.sourceFloor (Elevator.request a)) ∧
  (∀ i f, DroppedOff i f ∉ (Elevator.processRequests_loop e).2) ∧
  refusals (Elevator.processRequests_loop e).2 = 0%nat ∧
  dropoffs (Elevator.processRequests_loop e).2 = 0%nat.
Proof.
  destruct (Elevator.requests e) as [|r rest] eqn:Heq.
  - unfold Elevator.processRequests_loop. rewrite Heq. simpl.
    split_and!; try done; intros i f Hin; in_log.
  - rewrite (processRequests_loop_cons e r rest Heq).
    case_decide as Hsrc; simpl.
    + split_and!; try done; intros i f Hin; in_log.
    + split_and!; try done; intros i f Hin; in_log.
      injection Hin as -> ->. eexists. split; [done|]. by split_and!.
Qed.

Lemma addRequest_log request c accepted c' log :
  constructed request →
  consistent c →
  Elevator.addRequest request c = Some (accepted, c', log) →
  (∀ i f, PickedUp i f ∈ log →
     ∃ a, Elevator.draining c' = [a] ∧
          Elevator.leg a = Elevator.ToDestination ∧
          i = Elevator.id (Elevator.this c) ∧
          f = Request.sourceFloor (Elevator.request a)) ∧
  (∀ i f, DroppedOff i f ∉ log).
Proof.
  intros Hreq Hc Hadd. destruct c as [e acts]; simpl in *.
  destruct (decide (Elevator.passengers e >= Elevator.capacityLimit e))
    as [Hfull|Hroom].
  - pose proof Hc as [Hmutex _]. simpl in Hmutex.
    unfold Elevator.addRequest in Hadd; simpl in Hadd.
    rewrite Hmutex, decide_True in Hadd by done.
    injection Hadd as <- <- <-. split; intros i f Hin; in_log.
  - pose proof Hc as [_ (_ & _ & Hacts)]. simpl in Hacts.
    destruct acts as [|a [|a' acts]]; [| |done].
    + rewrite (addRequest_idle request e Hreq Hc Hroom) in Hadd.
      cbv zeta in Hadd. injection Hadd as <- <- <-. simpl.
      match goal with
      | |- context [Elevator.processRequests_loop ?e0] =>
          destruct (processRequests_loop_log e0) as (Hpick & Hdrop & _)
      end.
      split; [|done]. intros i f Hin.
      destruct (Hpick i f Hin) as (a & Ha & Hleg & -> & ->).
      exists a. rewrite Ha. simpl. by destruct e.
    + rewrite (addRequest_moving request e a Hreq Hc Hroom) in Hadd.
      injection Hadd as <- <- <-. split; intros i f Hin; in_log.
Qed.

Lemma car_resume_log k c c' log :
  steady c →
  car_resume k c = Some (c', log) →
  (∀ i f, PickedUp i f ∈ log →
     ∃ a, Elevator.draining c' = [a] ∧
          Elevator.leg a = Elevator.ToDestination ∧
          i = Elevator.id (Elevator.this c) ∧
          f = Request.sourceFloor (Elevator.request a)) ∧
  (∀ i f, DroppedOff i f ∈ log →
     ∃ a, Elevator.draining c = [a] ∧
          Elevator.leg a = Elevator.ToDestination ∧
          i = Elevator.id (Elevator.this c) ∧
          f = Request.destinationFloor (Elevator.request a)).
Proof.
  intros ([_ (_ & _ & Hacts)] & Hcourse & _) Hstep.
  destruct c as [e acts]. unfold car_resume in Hstep; simpl in *.
  destruct acts as [|a [|a' acts]]; [done| |done].
  destruct k as [|k]; [|done]. simpl in Hstep.
  rewrite Forall_singleton in Hcourse. destruct Hcourse as [_ Hmove].
  unfold Elevator.resume in Hstep.
  destruct a as [r leg [floor|]]; cbn [Elevator.move Elevator.request
    Elevator.leg] in *.
  - rewrite moveToFloor_wake_toward in Hstep. injection Hstep as <- <-.
    split; intros i f Hin; in_log.
  - unfold target in Hmove; simpl in Hmove. destruct leg; simpl in Hstep.
    + injection Hstep as <- <-. split; intros i f Hin; in_log.
      injection Hin as -> ->. eexists. split; [done|].
      simpl. split_and!; try done; by destruct e.
    + rewrite processRequests_dropoff_next in Hstep. cbv zeta in Hstep.
      match type of Hstep with
      | context [Elevator.processRequests_loop ?e0] =>
          destruct (processRequests_loop_log e0) as (Hpick & Hdrop & _);
          destruct (Elevator.processRequests_loop e0) as [[e3 next] log3]
      end.
      simpl in *. injection Hstep as <- <-. split; intros i f Hin; in_log.
      * destruct (Hpick i f Hin) as (a & -> & Hleg & -> & ->).
        exists a. simpl. split_and!; try done; by destruct e.
      * injection Hin as -> ->. eexists. by split_and!.
      * by destruct (Hdrop i f).
Qed.

(** X3: whatever calls come in between, a passenger gets on at the source
    floor of the request and off at its destination floor: a step that
    logs a pickup leaves that request in service on its way to the
    destination, the pickup being at its source floor, and a step that
    logs a drop-off ends the service of a request at its destination
    floor; both carry the id of the elevator. *)
Theorem pickup_at_source_dropoff_at_destination
    (id capacityLimit : Z) (c c' : Elevator.car) (action : Action)
    (log : list Event) :
  Reachable id capacityLimit c →
  car_step action c = Some (c', log) →
  (∀ i f, PickedUp i f ∈ log →
     ∃ a, Elevator.draining c' = [a] ∧
          Elevator.leg a = Elevator.ToDestination ∧
          i = id ∧ f = Request.sourceFloor (Elevator.request a)) ∧
  (∀ i f, DroppedOff i f ∈ log →
     ∃ a, Elevator.draining c = [a] ∧
          Elevator.leg a = Elevator.ToDestination ∧
          i = id ∧ f = Request.destinationFloor (Elevator.request a)).
Proof.
  intros Hreach Hstep.
  destruct (reachable_consistent _ _ _ Hreach) as (Hc & <- & _).
  pose proof (reachable_steady _ _ _ Hreach) as Hs.
  destruct action as [s d|k]; simpl in Hstep.
  - destruct (Elevator.addRequest _ c) as [[[accepted c1] log1]|] eqn:Hadd;
      [|done].
    injection Hstep as <- <-.
    destruct (addRequest_log _ _ _ _ _ (new_constructed s d) Hc Hadd)
      as [Hpick Hdrop].
    split; [done|]. intros i f Hin. by destruct (Hdrop i f).
  - by apply (car_resume_log k).
Qed.

(** ** No request is lost *)

Lemma refusals_app l1 l2 : refusals (l1 ++ l2) = (refusals l1 + refusals l2)%nat.
Proof. unfold refusals. by rewrite filter_app, length_app. Qed.

Lemma dropoffs_app l1 l2 : dropoffs (l1 ++ l2) = (dropoffs l1 + dropoffs l2)%nat.
Proof. unfold dropoffs. by rewrite filter_app, length_app. Qed.

Lemma refusals_cons ev l :
  refusals (ev :: l) = ((if is_refusal ev then 1 else 0) + refusals l)%nat.
Proof.
  unfold refusals. rewrite filter_cons. by destruct (is_refusal ev).
Qed.

Lemma dropoffs_cons ev l :
  dropoffs (ev :: l) = ((if is_dropoff ev then 1 else 0) + dropoffs l)%nat.
Proof.
  unfold dropoffs. rewrite filter_cons. by destruct (is_dropoff ev).
Qed.

Lemma held_spawn next (e : Elevator.t) :
  held (Elevator.mkCar e (Elevator.spawn next [])) = held_with next e.
Proof. by destruct next. Qed.

Lemma addRequest_balance request c accepted c' log :
  constructed request →
  consistent c →
  Elevator.addRequest request c = Some (accepted, c', log) →
  S (length (held c))
  = (refusals log + dropoffs log + length (held c'))%nat.
Proof.
  intros Hreq Hc Hadd. destruct c as [e acts]; simpl in *.
  destruct (decide (Elevator.passengers e >= Elevator.capacityLimit e))
    as [Hfull|Hroom].
  - pose proof Hc as [Hmutex _]. simpl in Hmutex.
    unfold Elevator.addRequest in Hadd; simpl in Hadd.
    rewrite Hmutex, decide_True in Hadd by done.
    injection Hadd as <- <- <-. unfold held; simpl.
    by destruct e.
  - pose proof Hc as [_ (_ & _ & Hacts)]. simpl in Hacts.
    destruct acts as [|a [|a' acts]]; [| |done].
    + rewrite (addRequest_idle request e Hreq Hc Hroom) in Hadd.
      cbv zeta in Hadd. injection Hadd as <- <- <-.
      destruct Hacts as (_ & _ & _ & Hempty).
      match goal with
      | |- context [Elevator.processRequests_loop ?e0] =>
          destruct (processRequests_loop_log e0) as (_ & _ & -> & ->);
          pose proof (processRequests_loop_held e0) as Hheld;
          destruct (Elevator.processRequests_loop e0) as [[e3 next] log3]
      end.
      simpl in Hheld.
      replace (held (Elevator.mkCar (Elevator.set_mutex false (e3, next, log3).1.1)
                       (Elevator.spawn (e3, next, log3).1.2 [])))
        with (held_with next e3) by (by destruct next, e3).
      rewrite Hheld. unfold held; simpl. by rewrite Hempty.
    + rewrite (addRequest_moving request e a Hreq Hc Hroom) in Hadd.
      injection Hadd as <- <- <-. unfold held; simpl.
      destruct (sort_for_sorted (Elevator.direction e)
                  (Elevator.requests e ++ [request])) as (_ & Hperm & _).
      destruct e as [i cap f d q p m x]; simpl in *.
      rewrite Hperm, length_app. simpl. lia.
Qed.

Lemma car_resume_balance k c c' log :
  consistent c →
  car_resume k c = Some (c', log) →
  refusals log = 0%nat ∧
  length (held c) = (dropoffs log + length (held c'))%nat.
Proof.
  intros [_ (_ & _ & Hacts)] Hstep.
  destruct c as [e acts]. unfold car_resume in Hstep; simpl in *.
  destruct acts as [|a [|a' acts]]; [done| |done].
  destruct k as [|k]; [|done]. simpl in Hstep.
  unfold Elevator.resume in Hstep.
  destruct a as [r leg [floor|]]; cbn [Elevator.move Elevator.request
    Elevator.leg] in *.
  - rewrite moveToFloor_wake_toward in Hstep. injection Hstep as <- <-.
    by destruct e.
  - destruct leg; simpl in Hstep.
    + injection Hstep as <- <-. by destruct e.
    + rewrite processRequests_dropoff_next in Hstep. cbv zeta in Hstep.
      match type of Hstep with
      | context [Elevator.processRequests_loop ?e0] =>
          destruct (processRequests_loop_log e0) as (_ & _ & Hr & Hd);
          pose proof (processRequests_loop_held e0) as Hheld;
          destruct (Elevator.processRequests_loop e0) as [[e3 next] log3]
      end.
      simpl in *. injection Hstep as <- <-.
      rewrite spawn_settle, held_spawn, Hheld.
      rewrite refusals_cons, dropoffs_cons, Hr, Hd.
      unfold held; simpl. by destruct e.
Qed.

Lemma car_run_balance schedule :
  ∀ c c' log,
    consistent c →
    car_run schedule c = Some (c', log) →
    (length (held c) + length (submitted schedule))%nat
    = (refusals log + dropoffs log + length (held c'))%nat.
Proof.
  induction schedule as [|action later IH]; intros c c' log Hc Hrun.
  - injection Hrun as <- <-. unfold submitted, refusals, dropoffs. simpl. lia.
  - simpl in Hrun.
    destruct (car_step action c) as [[c1 log1]|] eqn:Hstep; [|done].
    simpl in Hrun.
    destruct (car_run later c1) as [[c2 log2]|] eqn:Hlater; [|done].
    injection Hrun as <- <-.
    pose proof (car_step_consistent _ _ _ _ Hc Hstep) as Hc1.
    specialize (IH _ _ _ Hc1 Hlater).
    rewrite (submitted_cons action later), length_app, refusals_app,
      dropoffs_app.
    destruct action as [s d|k]; simpl in Hstep.
    + destruct (Elevator.addRequest _ c) as [[[accepted c0] log0]|] eqn:Hadd;
        [|done].
      injection Hstep as <- <-.
      pose proof (addRequest_balance _ _ _ _ _ (new_constructed s d) Hc Hadd).
      unfold submitted at 1. simpl. lia.
    + destruct (car_resume_balance _ _ _ _ Hc Hstep).
      unfold submitted at 1. simpl. lia.
Qed.

(** X5: no request is lost or served twice: at any time the number of
    calls of [addRequest] made on an elevator is the number of calls it has
    refused ("is at capacity") plus the number of passengers it has let
    off plus the number of requests it still holds, in service or in its
    queue. *)
Theorem calls_refused_served_or_held
    (id capacityLimit : Z) (schedule : list Action) (c : Elevator.car)
    (log : list Event) :
  car_run schedule (Elevator.mkCar (Elevator.new id capacityLimit) [])
  = Some (c, log) →
  length (submitted schedule)
  = (refusals log + dropoffs log + length (held c))%nat.
Proof.
  intros Hrun.
  apply car_run_balance in Hrun; [|apply new_consistent].
  exact Hrun.
Qed.

(** ** Where the elevator stands *)

Lemma optimizeRequests_floor (e e' : Elevator.t) :
  Elevator.optimizeRequests e = Some e' →
  Elevator.currentFloor e' = Elevator.currentFloor e.
Proof.
  destruct e as [i cap f d q p m x].
  unfold Elevator.optimizeRequests; simpl.
  destruct d; try (by intros [= <-]).
  destruct q as [|first rest]; [by intros [= <-]|]. simpl.
  destruct (Request.direction first); [by intros [= <-]..|done].
Qed.

Lemma processRequests_loop_floor (e : Elevator.t) :
  Elevator.currentFloor (Elevator.processRequests_loop e).1.1
  = Elevator.currentFloor e.
Proof.
  destruct e as [i cap f d q p m x].
  unfold Elevator.processRequests_loop; simpl.
  destruct q as [|r rest]; [done|]. simpl. by case_decide.
Qed.

(** A call of [addRequest] does not move the elevator. *)
Lemma addRequest_floor request c accepted c' log :
  Elevator.addRequest request c = Some (accepted, c', log) →
  Elevator.currentFloor (Elevator.this c')
  = Elevator.currentFloor (Elevator.this c).
Proof.
  destruct c as [e acts]. unfold Elevator.addRequest; simpl.
  destruct (Elevator.mutex e); [done|].
  case_decide; [by intros [= <- <- <-]|].
  destruct (Elevator.optimizeRequests _) as [e1|] eqn:Hopt; [|done].
  apply optimizeRequests_floor in Hopt. simpl in *.
  destruct (Elevator.isMoving e1).
  - by intros [= <- <- <-].
  - unfold Elevator.processRequests.
    match goal with
    | |- context [Elevator.processRequests_loop ?e0] =>
        pose proof (processRequests_loop_floor e0) as Hloop;
        destruct (Elevator.processRequests_loop e0) as [[e3 started] log3]
    end.
    intros [= <- <- <-]. simpl in *. congruence.
Qed.

(** ** The drain comes to an end *)

Lemma double_zero : double (1 - 1) = 0.
Proof. reflexivity. Qed.

Lemma double_one : double (0 + 1) = 1.
Proof. reflexivity. Qed.

Lemma exact_zero : exact 0.
Proof. unfold exact. lia. Qed.

Lemma exact_one : exact (0 + 1).
Proof. unfold exact. lia. Qed.

Lemma comes_to_rest_after m c c1 log1 :
  car_run (replicate m (Resume 0)) c = Some (c1, log1) →
  comes_to_rest c1 →
  comes_to_rest c.
Proof.
  intros Hrun (n & c' & log & Hrest & Hat).
  exists (m + n)%nat, c', (log1 ++ log). split; [|done].
  rewrite replicate_add. by eapply car_run_app.
Qed.

Lemma after_drain_at_rest (e : Elevator.t) :
  Elevator.direction e = next_direction (Elevator.requests e) →
  Elevator.passengers e = 0 →
  Elevator.mutex e = false →
  at_rest (Elevator.mkCar (after_drain (Elevator.requests e) e) []).
Proof.
  intros Hd Hp Hm.
  destruct (Elevator.requests e) as [|r rest] eqn:Hq.
  - destruct e as [i cap f d q p m x]; simpl in *. subst. by repeat split.
  - rewrite after_drain_idle. by repeat split.
Qed.

Lemma comes_to_rest_from_loop (e : Elevator.t) :
  Elevator.direction e = next_direction (Elevator.requests e) →
  Elevator.passengers e = 0 →
  Elevator.mutex e = false →
  exact (Elevator.currentFloor e) →
  Forall exact_request (Elevator.requests e) →
  comes_to_rest (running (Elevator.processRequests_loop e)).
Proof.
  intros Hd Hp Hm He Hq.
  destruct (car_run_drain (Elevator.requests e) e eq_refl He)
    as (log & Hrun & _);
    [rewrite Hp; apply exact_zero|rewrite Hp; apply exact_one|done|].
  eexists _, _, _. split; [exact Hrun|]. by apply after_drain_at_rest.
Qed.

Lemma comes_to_rest_from_destination (e : Elevator.t) r state :
  Elevator.passengers e = 1 →
  Elevator.mutex e = false →
  exact (Elevator.currentFloor e) →
  exact (Request.destinationFloor r) →
  Forall exact_request (Elevator.requests e) →
  match state with
  | Elevator.Sleeping floor =>
      floor = Request.destinationFloor r ∧ Elevator.currentFloor e ≠ floor
  | Elevator.Finished => Elevator.currentFloor e = Request.destinationFloor r
  end →
  comes_to_rest
    (Elevator.mkCar e [Elevator.mkActivation r Elevator.ToDestination state]).
Proof.
  intros Hp Hm He Hr Hq Hstate.
  assert (∀ e0 : Elevator.t,
            Elevator.passengers e0 = 1 → Elevator.mutex e0 = false →
            exact (Elevator.currentFloor e0) →
            Forall exact_request (Elevator.requests e0) →
            comes_to_rest
              (Elevator.mkCar e0
                 [Elevator.mkActivation r Elevator.ToDestination
                    Elevator.Finished])) as Harrived.
  { intros e0 Hp0 Hm0 He0 Hq0.
    eapply (comes_to_rest_after 1); [by apply car_run_arrived|].
    apply comes_to_rest_from_loop; destruct e0; simpl in *; subst;
      first [done|apply double_zero]. }
  destruct state as [floor|].
  - destruct Hstate as [-> Hne].
    eapply comes_to_rest_after; [by apply car_run_travel|].
    apply Harrived; by destruct e.
  - by apply Harrived.
Qed.

Lemma comes_to_rest_from_source (e : Elevator.t) r state :
  Elevator.passengers e = 0 →
  Elevator.mutex e = false →
  exact (Elevator.currentFloor e) →
  exact_request r →
  Forall exact_request (Elevator.requests e) →
  match state with
  | Elevator.Sleeping floor =>
      floor = Request.sourceFloor r ∧ Elevator.currentFloor e ≠ floor
  | Elevator.Finished => Elevator.currentFloor e = Request.sourceFloor r
  end →
  comes_to_rest
    (Elevator.mkCar e [Elevator.mkActivation r Elevator.ToSource state]).
Proof.
  intros Hp Hm He [Hsource Hdestination] Hq Hstate.
  assert (∀ e0 : Elevator.t,
            Elevator.passengers e0 = 0 → Elevator.mutex e0 = false →
            exact (Elevator.currentFloor e0) →
            Forall exact_request (Elevator.requests e0) →
            Elevator.currentFloor e0 = Request.sourceFloor r →
            comes_to_rest
              (Elevator.mkCar e0
                 [Elevator.mkActivation r Elevator.ToSource
                    Elevator.Finished])) as Harrived.
  { intros e0 Hp0 Hm0 He0 Hq0 Hf0.
    eapply (comes_to_rest_after 1); [reflexivity|].
    apply comes_to_rest_from_destination;
      [destruct e0; simpl in *; subst; apply double_one
      |by destruct e0..|].
    unfold Elevator.moveToFloor_test. simpl.
    case_decide as Hdst; [by destruct e0|].
    by destruct e0. }
  destruct state as [floor|].
  - destruct Hstate as [-> Hne].
    eapply comes_to_rest_after; [by apply car_run_travel|].
    apply Harrived; by destruct e.
  - by apply Harrived.
Qed.

Lemma car_run_resumes_quiet n :
  ∀ c c' log,
    consistent c →
    car_run (replicate n (Resume 0)) c = Some (c', log) →
    refusals log = 0%nat ∧
    length (held c) = (dropoffs log + length (held c'))%nat.
Proof.
  induction n as [|n IH]; intros c c' log Hc Hrun.
  - injection Hrun as <- <-. by split.
  - simpl in Hrun.
    destruct (car_resume 0 c) as [[c1 log1]|] eqn:Hstep; [|done].
    simpl in Hrun.
    destruct (car_run (replicate n (Resume 0)) c1) as [[c2 log2]|] eqn:Hlater;
      [|done].
    injection Hrun as <- <-.
    destruct (car_resume_balance _ _ _ _ Hc Hstep) as [Hr1 Hh1].
    destruct (IH _ _ _ (car_resume_consistent _ _ _ _ Hc Hstep) Hlater)
      as [Hr2 Hh2].
    rewrite refusals_app, dropoffs_app. lia.
Qed.

(** A step keeps the elevator on floors of the exact range when the
    requests are between such floors: it moves by one floor towards a floor
    of a request it holds. *)
Lemma car_resume_floor k c c' log :
  steady c →
  ranged c →
  car_resume k c = Some (c', log) →
  exact (Elevator.currentFloor (Elevator.this c')).
Proof.
  intros (Hc & Hcourse & _) [He Hheld] Hstep.
  destruct c as [e acts]. destruct Hc as [_ (_ & _ & Hacts)].
  unfold car_resume in Hstep. unfold held in Hheld. simpl in *.
  destruct acts as [|a [|a' acts]]; [done| |done].
  destruct k as [|k]; [|done]. simpl in Hstep.
  rewrite Forall_singleton in Hcourse. destruct Hcourse as [_ Hmove].
  simpl in Hheld. apply Forall_cons_1 in Hheld as [[Hsource Hdestination] _].
  unfold Elevator.resume in Hstep.
  destruct a as [r leg [floor|]]; cbn [Elevator.move Elevator.request
    Elevator.leg] in *.
  - rewrite moveToFloor_wake_toward in Hstep. injection Hstep as <- <-.
    simpl. destruct Hmove as [-> Hne].
    apply toward_exact; [|done..].
    unfold target; simpl. by destruct leg.
  - destruct leg; simpl in Hstep.
    + injection Hstep as <- <-. by destruct e.
    + rewrite processRequests_dropoff_next in Hstep. cbv zeta in Hstep.
      match type of Hstep with
      | context [Elevator.processRequests_loop ?e0] =>
          pose proof (processRequests_loop_floor e0) as Hfloor;
          destruct (Elevator.processRequests_loop e0) as [[e3 next] log3]
      end.
      simpl in *. injection Hstep as <- <-. simpl.
      rewrite Hfloor. by destruct e.
Qed.

Lemma car_step_ranged action c c' log :
  steady c →
  ranged c →
  Forall exact_request (submitted [action]) →
  car_step action c = Some (c', log) →
  ranged c'.
Proof.
  intros Hsteady Hranged Haction Hstep. split.
  - destruct action as [s d|k]; simpl in Hstep.
    + destruct (Elevator.addRequest _ c) as [[[accepted c0] log0]|] eqn:Hadd;
        [|done].
      injection Hstep as <- <-.
      rewrite (addRequest_floor _ _ _ _ _ Hadd). apply Hranged.
    + by eapply car_resume_floor.
  - assert (car_run [action] c = Some (c', log ++ [])) as Hrun
      by (simpl; by rewrite Hstep).
    apply car_run_held in Hrun; [|apply Hsteady].
    apply Forall_forall. intros r Hr.
    apply Hrun, elem_of_app in Hr as [Hr|Hr].
    + destruct Hranged as [_ Hheld]. rewrite Forall_forall in Hheld.
      by apply Hheld.
    + rewrite Forall_forall in Haction. by apply Haction.
Qed.

Lemma car_run_ranged schedule :
  ∀ c c' log,
    steady c →
    ranged c →
    Forall exact_request (submitted schedule) →
    car_run schedule c = Some (c', log) →
    ranged c'.
Proof.
  induction schedule as [|action later IH];
    intros c c' log Hsteady Hranged Hschedule; simpl.
  - by intros [= <- <-].
  - destruct (car_step action c) as [[c1 log1]|] eqn:Hstep; [|done]. simpl.
    destruct (car_run later c1) as [[c2 log2]|] eqn:Hlater; [|done]. simpl.
    intros [= <- <-].
    rewrite (submitted_cons action later) in Hschedule.
    apply Forall_app in Hschedule as [Haction Hlater'].
    eapply IH; [| |exact Hlater'|exact Hlater].
    + by eapply car_step_steady.
    + by eapply car_step_ranged.
Qed.

Lemma new_ranged id capacityLimit :
  ranged (Elevator.mkCar (Elevator.new id capacityLimit) []).
Proof. split; [apply exact_zero|constructor]. Qed.

(** X6: left alone, an elevator that was called for floors between -2^53
    and 2^53 only serves every request it holds and comes to rest: from
    any state that calls for such floors and turns of its timer can bring
    it to, a finite number of turns of its timer and resumptions of its
    drain, with no further call, lets off as many passengers as it held
    requests and ends with no call of [processRequests] under way,
    [isMoving] false, direction IDLE, an empty queue and nobody on
    board. *)
Theorem drain_serves_all_and_ends
    (id capacityLimit : Z) (schedule : list Action) (c : Elevator.car)
    (log0 : list Event) :
  Forall exact_request (submitted schedule) →
  car_run schedule (Elevator.mkCar (Elevator.new id capacityLimit) [])
  = Some (c, log0) →
  ∃ n c' log,
    car_run (replicate n (Resume 0)) c = Some (c', log) ∧
    at_rest c' ∧
    dropoffs log = length (held c) ∧
    refusals log = 0%nat.
Proof.
  intros Hschedule Hreach.
  destruct (car_run_steady _ _ _ _ (new_steady id capacityLimit) Hreach)
    as (Hc & Hcourse & _).
  destruct (car_run_ranged _ _ _ _ (new_steady id capacityLimit)
              (new_ranged id capacityLimit) Hschedule Hreach)
    as [He Hheld].
  assert (comes_to_rest c) as (n & c' & log & Hrun & Hrest).
  { destruct c as [e acts]. destruct Hc as [Hm (_ & _ & Hacts)].
    unfold held in Hheld. simpl in *.
    destruct acts as [|a [|a' acts]]; [| |done].
    - exists 0%nat, (Elevator.mkCar e []), []. split; [done|].
      destruct Hacts as (? & ? & ? & ?). by repeat split.
    - destruct Hacts as (_ & Hp & _).
      rewrite Forall_singleton in Hcourse. destruct Hcourse as [_ Hmove].
      simpl in Hheld. apply Forall_cons_1 in Hheld as [Hr Hq].
      destruct a as [r [|] state]; unfold on_board, target in *; simpl in *.
      + by apply comes_to_rest_from_source.
      + apply comes_to_rest_from_destination; try done. apply Hr. }
  exists n, c', log. split; [done|]. split; [done|].
  destruct (car_run_resumes_quiet _ _ _ _ Hc Hrun) as [Hr Hh].
  split; [|done].
  destruct Hrest as (Hd & _ & _ & Hq & _).
  unfold held in Hh at 2. rewrite Hd, Hq in Hh. simpl in Hh. lia.
Qed.

(** ** What the capacity does *)

(** X7: a call of [addRequest] is accepted exactly when the elevator has
    fewer passengers on board than its capacity, however many requests
    wait in its queue; since it never carries more than one passenger, an
    elevator with a capacity of two or more refuses no call at all.  An
    accepted request is held by the elevator afterwards. *)
Theorem addRequest_accepts_while_room
    (id capacityLimit : Z) (c : Elevator.car) (sourceFloor destinationFloor : Z) :
  Reachable id capacityLimit c →
  ∃ accepted c' log,
    Elevator.addRequest (Request.new sourceFloor destinationFloor) c
    = Some (accepted, c', log) ∧
    (accepted = true
     ↔ Elevator.passengers (Elevator.this c) < capacityLimit) ∧
    (2 ≤ capacityLimit → accepted = true) ∧
    (accepted = true →
     Request.new sourceFloor destinationFloor ∈ held c' ∧
     length (held c') = S (length (held c))).
Proof.
  intros Hreach.
  destruct (reachable_consistent _ _ _ Hreach) as (Hc & _ & Hcap).
  pose proof (new_constructed sourceFloor destinationFloor) as Hreq.
  set (request := Request.new sourceFloor destinationFloor) in *.
  assert (0 ≤ Elevator.passengers (Elevator.this c) ≤ 1) as Hp.
  { destruct Hc as [_ (_ & _ & Hacts)].
    destruct (Elevator.draining c) as [|a [|a' acts]]; [| |done].
    - destruct Hacts as (_ & -> & _). lia.
    - destruct Hacts as (_ & -> & _). unfold on_board.
      destruct (Elevator.leg a); lia. }
  destruct c as [e acts]; simpl in *.
  destruct (decide (Elevator.passengers e >= Elevator.capacityLimit e))
    as [Hfull|Hroom].
  - pose proof Hc as [Hmutex _]. simpl in Hmutex.
    unfold Elevator.addRequest; simpl.
    rewrite Hmutex, decide_True by done.
    eexists _, _, _. split; [done|]. split_and!; [split| |]; try done; lia.
  - pose proof Hc as [_ (_ & _ & Hacts)]. simpl in Hacts.
    destruct acts as [|a [|a' acts]]; [| |done].
    + rewrite (addRequest_idle request e Hreq Hc Hroom). cbv zeta.
      eexists _, _, _. split; [done|].
      split_and!; [split; [lia|done]|done|]. intros _.
      destruct Hacts as (_ & _ & _ & Hempty).
      match goal with
      | |- context [Elevator.processRequests_loop ?e0] =>
          pose proof (processRequests_loop_held e0) as Hheld;
          destruct (Elevator.processRequests_loop e0) as [[e3 next] log3]
      end.
      simpl in Hheld.
      replace (held (Elevator.mkCar (Elevator.set_mutex false (e3, next, log3).1.1)
                       (Elevator.spawn (e3, next, log3).1.2 [])))
        with (held_with next e3) by (by destruct next, e3).
      rewrite Hheld. unfold held; simpl. rewrite Hempty.
      split; [apply list_elem_of_singleton; done|done].
    + rewrite (addRequest_moving request e a Hreq Hc Hroom).
      eexists _, _, _. split; [done|].
      split_and!; [split; [lia|done]|done|]. intros _.
      destruct (sort_for_sorted (Elevator.direction e)
                  (Elevator.requests e ++ [request])) as (_ & Hperm & _).
      unfold held; simpl. destruct e as [i cap f d q p m x]; simpl in *.
      rewrite Hperm. split.
      * rewrite elem_of_cons, elem_of_app, list_elem_of_singleton. auto.
      * simpl. rewrite !length_app. simpl. lia.
Qed.

(** X8: an elevator built with a capacity of zero or less refuses every
    call and never changes: any run on it consists of refused calls only,
    logs one "is at capacity" per call and leaves the elevator as the
    constructor made it. *)
Theorem elevator_without_capacity_stays
    (id capacityLimit : Z) (schedule : list Action) (c : Elevator.car)
    (log : list Event) :
  capacityLimit ≤ 0 →
  car_run schedule (Elevator.mkCar (Elevator.new id capacityLimit) [])
  = Some (c, log) →
  c = Elevator.mkCar (Elevator.new id capacityLimit) [] ∧
  log = replicate (length schedule) (AtCapacity id) ∧
  Forall (λ action, ∃ s d, action = Call s d) schedule.
Proof.
  intros Hcap. revert log.
  induction schedule as [|action later IH]; intros log Hrun.
  - by injection Hrun as <- <-.
  - simpl in Hrun. destruct action as [s d|k]; [|done].
    unfold car_step, Elevator.addRequest in Hrun; simpl in Hrun.
    rewrite decide_True in Hrun by lia. simpl in Hrun.
    change (Elevator.mk id capacityLimit 0 IDLE [] 0 false false)
      with (Elevator.new id capacityLimit) in Hrun.
    destruct (car_run later _) as [[c2 log2]|] eqn:Hlater; [|done].
    injection Hrun as <- <-.
    destruct (IH _ eq_refl) as (-> & -> & Hcalls).
    split_and!; [done|done|]. constructor; [by exists s, d|done].
Qed.

Lemma optimizeRequests_stack_endless depth (e : Elevator.t) first rest :
  Elevator.direction e = IDLE →
  Elevator.requests e = first :: rest →
  Request.direction first = IDLE →
  Elevator.optimizeRequests_stack depth e = Elevator.Overflows e.
Proof.
  revert e. induction depth as [|depth IH]; intros e Hd Hq Hf; [done|].
  simpl. rewrite Hd, Hq, Hf.
  replace (Elevator.set_direction IDLE e) with e
    by (destruct e; simpl in *; by subst).
  by eapply IH.
Qed.

(** With room on the stack for the two nested calls that
    [optimizeRequests] needs at most, the call returns what
    [optimizeRequests] gives, and it overflows when [optimizeRequests]
    gives nothing. *)
Lemma optimizeRequests_stack_returns depth (e : Elevator.t) :
  (2 ≤ depth)%nat →
  Elevator.optimizeRequests e
  = match Elevator.optimizeRequests_stack depth e with
    | Elevator.Returns e' => Some e'
    | Elevator.Overflows _ => None
    end.
Proof.
  intros Hdepth. destruct depth as [|[|depth]]; [lia..|].
  destruct e as [i cap f d q p m x].
  unfold Elevator.optimizeRequests. simpl.
  destruct d; try done.
  destruct q as [|first rest]; [done|]. simpl.
  destruct (Request.direction first) eqn:Hf; try done.
  by rewrite (optimizeRequests_stack_endless depth _ first rest).
Qed.

(** [addRequest] is [addRequest_outcome] as far as it returns. *)
Lemma addRequest_outcome_returned depth request c :
  (2 ≤ depth)%nat →
  Elevator.addRequest request c
  = returned (Elevator.addRequest_outcome depth request c).
Proof.
  intros Hdepth.
  unfold Elevator.addRequest, Elevator.addRequest_outcome.
  destruct (Elevator.mutex (Elevator.this c)); [done|].
  cbv zeta. case_decide; [done|].
  rewrite (optimizeRequests_stack_returns depth) by done.
  destruct (Elevator.optimizeRequests_stack depth _) as [e1|e1]; [|done].
  simpl. destruct (Elevator.isMoving e1); [done|].
  by destruct (Elevator.processRequests e1) as [[e2 started] log].
Qed.

(** X9: a request object whose [direction] field is IDLE (the constructor
    never makes one) at the head of the queue of an idle elevator makes
    [optimizeRequests] call itself until the stack is full, however deep
    the stack is, and leaves the object as it was.  [addRequest] with such
    an object on an elevator at rest that has room therefore throws at
    line 41 and returns nothing: the elevator is left with the request in
    its queue, the flag [mutex] set and nothing else changed, no call of
    [processRequests] is started, and every later call of [addRequest] on
    it finds the flag set and polls. *)
Theorem addRequest_with_idle_request_throws :
  (∀ depth (e : Elevator.t) first rest,
     Elevator.direction e = IDLE →
     Elevator.requests e = first :: rest →
     Request.direction first = IDLE →
     Elevator.optimizeRequests_stack depth e = Elevator.Overflows e ∧
     Elevator.optimizeRequests_rec depth e = None) ∧
  (∀ depth (c : Elevator.car) (request : Request.t),
     at_rest c →
     Elevator.passengers (Elevator.this c)
     < Elevator.capacityLimit (Elevator.this c) →
     Request.direction request = IDLE →
     let stuck :=
       Elevator.mkCar
         (Elevator.mk (Elevator.id (Elevator.this c))
            (Elevator.capacityLimit (Elevator.this c))
            (Elevator.currentFloor (Elevator.this c))
            IDLE [request] 0 false true) [] in
     Elevator.addRequest_outcome depth request c = Elevator.Thrown stuck ∧
     Elevator.addRequest request c = None ∧
     ∀ depth' request',
       Elevator.addRequest_outcome depth' request' stuck = Elevator.Polling ∧
       Elevator.addRequest request' stuck = None).
Proof.
  split.
  - intros depth e first rest Hd Hq Hf. split.
    + by eapply optimizeRequests_stack_endless.
    + by eapply optimizeRequests_rec_endless.
  - intros depth [[i cap f d q p m x] acts] request.
    unfold at_rest; simpl. intros (-> & -> & -> & -> & -> & ->) Hroom Hidle.
    split_and!.
    + unfold Elevator.addRequest_outcome; simpl.
      rewrite decide_False by lia.
      by rewrite (optimizeRequests_stack_endless depth _ request []).
    + unfold Elevator.addRequest; simpl. rewrite decide_False by lia.
      unfold Elevator.optimizeRequests.
      by rewrite (optimizeRequests_rec_endless 2 _ request []).
    + done.
Qed.

(** ** The controller and the bank *)

(** X10: [handleRequest] changes at most the elevator it has chosen: the
    bank keeps its length, every other position keeps its elevator as it
    was, and the elevator at the chosen position keeps its id and its
    capacity. *)
Theorem handleRequest_touches_only_chosen
    (request : Request.t) (elevators elevators' : list Elevator.car)
    (log : list Event) :
  ElevatorController.handleRequest request elevators = Some (elevators', log) →
  length elevators' = length elevators ∧
  (∀ j, ElevatorController.findOptimalElevator elevators request ≠ Some j →
        elevators' !! j = elevators !! j) ∧
  (∀ j c c', elevators !! j = Some c → elevators' !! j = Some c' →
             same_elevator (Elevator.this c) (Elevator.this c')).
Proof.
  unfold ElevatorController.handleRequest.
  destruct (ElevatorController.findOptimalElevator elevators request)
    as [position|].
  - destruct (elevators !! position) as [chosen|] eqn:Hpos; [|done]. simpl.
    destruct (Elevator.addRequest request chosen)
      as [[[accepted chosen'] log']|] eqn:Hadd; [|done]. simpl.
    intros [= <- <-]. split_and!.
    + apply length_insert.
    + intros j Hj. apply list_lookup_insert_ne. congruence.
    + intros j c c' Hc Hc'.
      destruct (decide (position = j)) as [->|Hne].
      * rewrite list_lookup_insert_eq in Hc' by by eapply lookup_lt_Some.
        injection Hc' as <-. rewrite Hpos in Hc. injection Hc as <-.
        by eapply addRequest_same.
      * rewrite list_lookup_insert_ne in Hc' by done.
        rewrite Hc in Hc'. by injection Hc' as <-.
  - intros [= <- <-]. split_and!; [done|done|].
    intros j c c' Hc Hc'. rewrite Hc in Hc'. by injection Hc' as <-.
Qed.

(** The first elevator is chosen when it has room and no other one is
    nearer. *)
Lemma findOptimalElevator_first c rest request :
  eligible (Elevator.this c) →
  Forall (λ c', distance_to request (Elevator.this c)
                ≤ distance_to request (Elevator.this c')) rest →
  ElevatorController.findOptimalElevator (c :: rest) request = Some 0%nat.
Proof.
  intros Hroom Hrest.
  assert (nearest_eligible request (Elevator.this <$> c :: rest) 0) as Hfirst.
  { exists (Elevator.this c). split_and!; [done|done| |intros; lia].
    intros [|j] e'; simpl.
    - intros [= <-] _. lia.
    - rewrite list_lookup_fmap. intros Hj _.
      destruct (rest !! j) as [c'|] eqn:Hc'; [|done].
      injection Hj as <-. rewrite Forall_lookup in Hrest.
      by apply (Hrest j c'). }
  pose proof (findOptimalElevator_selected (c :: rest) request) as Hsel.
  destruct (ElevatorController.findOptimalElevator (c :: rest) request)
    as [j|]; simpl in Hsel.
  - f_equal. by eapply nearest_eligible_unique.
  - apply Forall_cons_1 in Hsel as [Hc _]. done.
Qed.

Lemma burst_to_first cap burst :
  2 ≤ cap →
  ∀ c rest,
    consistent c →
    Elevator.capacityLimit (Elevator.this c) = cap →
    Forall (λ c', Elevator.currentFloor (Elevator.this c')
                  = Elevator.currentFloor (Elevator.this c)) rest →
    ∃ c' log,
      car_run (calls burst) c = Some (c', log) ∧
      system_run (submissions burst) (c :: rest) = Some (c' :: rest, log).
Proof.
  intros Hcap. induction burst as [|[s d] burst IH]; intros c rest Hc Hc_cap Hrest.
  - by exists c, [].
  - destruct (addRequest_consistent (Request.new s d) c)
      as (accepted & c1 & log1 & Hadd & Hc1); [apply new_constructed|done|].
    destruct (addRequest_same _ _ _ _ _ Hadd) as [_ Hcap1].
    pose proof (addRequest_floor _ _ _ _ _ Hadd) as Hfloor1.
    destruct (IH c1 rest) as (c2 & log2 & Hrun & Hsys);
      [done|congruence|by rewrite Hfloor1|].
    exists c2, (log1 ++ log2). split.
    + simpl. rewrite Hadd. simpl. by rewrite Hrun.
    + simpl. unfold ElevatorController.handleRequest.
      rewrite findOptimalElevator_first; simpl.
      * rewrite Hadd. simpl. by rewrite Hsys.
      * unfold eligible. rewrite Hc_cap.
        destruct Hc as [_ (_ & _ & Hacts)].
        destruct (Elevator.draining c) as [|a [|a' acts]]; [| |done].
        -- destruct Hacts as (_ & -> & _). lia.
        -- destruct Hacts as (_ & -> & _). unfold on_board.
           destruct (Elevator.leg a); lia.
      * eapply Forall_impl; [exact Hrest|]. intros c' Hc'. simpl in Hc'.
        unfold distance_to. rewrite Hc'. lia.
Qed.

(** X11: the controller does not spread a burst of requests over the
    bank: in a bank as [new ElevatorSystem(n, capacity)] builds it, with a
    capacity of two or more, requests handed to [handleRequest] one after
    the other before any timer has fired all go to the first elevator (all
    elevators stand at floor 0, so the distances tie and the first one
    wins), and the other elevators stay as built. *)
Theorem burst_goes_to_first_elevator
    (others : nat) (capacityLimit : Z) (burst : list (Z * Z)) :
  2 ≤ capacityLimit →
  ∃ c log,
    car_run (calls burst) (Elevator.mkCar (Elevator.new 1 capacityLimit) [])
    = Some (c, log) ∧
    system_run (submissions burst) (ElevatorSystem.new (S others) capacityLimit)
    = Some (c :: drop 1 (ElevatorSystem.new (S others) capacityLimit), log).
Proof.
  intros Hcap. unfold ElevatorSystem.new.
  rewrite <- cons_seq, fmap_cons. simpl. rewrite drop_0.
  apply (burst_to_first capacityLimit burst Hcap).
  - apply new_consistent.
  - done.
  - apply Forall_fmap, Forall_true. done.
Qed.

(** ** The length of the way *)










(** ** Sorting again *)

Lemma sort_insert_front {A} (compareFn : A → A → Z) x l :
  Forall (λ y, compareFn x y ≤ 0) l →
  sort_insert compareFn x l = x :: l.
Proof.
  intros Hl. destruct l as [|y l]; [done|]. simpl.
  apply Forall_cons_1 in Hl as [Hy _]. by rewrite decide_True.
Qed.

Lemma array_sort_of_sorted {A} (compareFn : A → A → Z) l :
  StronglySorted (λ x y, compareFn x y ≤ 0) l →
  array_sort compareFn l = l.
Proof.
  induction 1 as [|x l Hl IH Hx]; [done|].
  simpl. rewrite IH. by apply sort_insert_front.
Qed.

Lemma sorted_weaken {A} (R1 R2 : relation A) l :
  (∀ x y, R1 x y → R2 x y) →
  StronglySorted R1 l → StronglySorted R2 l.
Proof.
  intros Himpl. induction 1 as [|x l Hl IH Hx]; constructor; [done|].
  eapply Forall_impl; [exact Hx|]. apply Himpl.
Qed.

Lemma sort_for_of_sorted d l : in_order d l → sort_for d l = l.
Proof.
  intros Hl. destruct d; simpl; [| |done].
  - apply array_sort_of_sorted.
    eapply sorted_weaken; [|exact Hl].
    unfold Elevator.ascending. simpl. intros; lia.
  - apply array_sort_of_sorted.
    eapply sorted_weaken; [|exact Hl].
    unfold Elevator.descending. simpl. intros; lia.
Qed.

(** X13: [optimizeRequests] applied a second time changes nothing: a
    queue it has ordered is left as it is, entry for entry, and so is the
    direction. *)
Theorem optimizeRequests_twice (e e' : Elevator.t) :
  Forall constructed (Elevator.requests e) →
  Elevator.optimizeRequests e = Some e' →
  Elevator.optimizeRequests e' = Some e'.
Proof.
  intros Hq Hopt.
  assert (Forall (λ r, Request.direction r ≠ IDLE) (Elevator.requests e))
    as Hq' by (eapply Forall_impl; [exact Hq|]; apply constructed_not_idle).
  rewrite optimizeRequests_unfold in Hopt by done.
  injection Hopt as <-.
  pose proof (sort_for_sorted (adopted_direction e) (Elevator.requests e))
    as (Hsorted & Hperm & _).
  rewrite optimizeRequests_unfold; simpl; [|by rewrite Hperm].
  assert (adopted_direction
            (Elevator.set_requests
               (sort_for (adopted_direction e) (Elevator.requests e))
               (Elevator.set_direction (adopted_direction e) e))
          = adopted_direction e) as ->.
  { unfold adopted_direction at 1. simpl.
    destruct (adopted_direction e) eqn:Hd; try done.
    simpl. unfold adopted_direction in Hd.
    destruct (Elevator.requests e) as [|first rest]; [done|].
    apply Forall_cons_1 in Hq' as [Hfirst _].
    by destruct (Elevator.direction e). }
  rewrite (sort_for_of_sorted _ _ Hsorted). by destruct e.
Qed.

(** ** Instances of the further properties *)

Lemma under_way_run :
  car_run under_way_schedule (Elevator.mkCar (Elevator.new 1 5) [])
  = Some (under_way, under_way_log).
Proof. reflexivity. Qed.

Lemma under_way_reachable : Reachable 1 5 under_way.
Proof. exists under_way_schedule, under_way_log. apply under_way_run. Qed.

Lemma elevator_at_rest_or_draining_witness :
  Elevator.mutex (Elevator.this under_way) = false ∧
  (Elevator.isMoving (Elevator.this under_way) = false
   ↔ Elevator.draining under_way = []) ∧
  (Elevator.direction (Elevator.this under_way) = IDLE
   ↔ Elevator.draining under_way = []) ∧
  (Elevator.draining under_way = [] → at_rest under_way) ∧
  (Elevator.draining under_way ≠ [] →
   ∃ a, Elevator.draining under_way = [a]).
Proof.
  apply (elevator_at_rest_or_draining 1 5 under_way).
  apply under_way_reachable.
Defined.

Lemma direction_and_target_of_request_in_service_witness :
  Elevator.direction (Elevator.this under_way) = UP ∧
  (5 = 5 ∧ Elevator.currentFloor (Elevator.this under_way) ≠ 5).
Proof.
  apply (direction_and_target_of_request_in_service 1 5 under_way
           (Elevator.mkActivation (Request.new 0 5) Elevator.ToDestination
              (Elevator.Sleeping 5))).
  - apply under_way_reachable.
  - by apply list_elem_of_singleton.
Defined.

Lemma pickup_at_source_dropoff_at_destination_witness :
  (∀ i f, PickedUp i f ∈ [PickedUp 1 0; Moving 1 0 5] →
     ∃ a, Elevator.draining full_car = [a] ∧
          Elevator.leg a = Elevator.ToDestination ∧
          i = 1 ∧ f = Request.sourceFloor (Elevator.request a)) ∧
  (∀ i f, DroppedOff i f ∈ [PickedUp 1 0; Moving 1 0 5] →
     ∃ a, Elevator.draining (Elevator.mkCar (Elevator.new 1 1) []) = [a] ∧
          Elevator.leg a = Elevator.ToDestination ∧
          i = 1 ∧ f = Request.destinationFloor (Elevator.request a)).
Proof.
  apply (pickup_at_source_dropoff_at_destination 1 1
           (Elevator.mkCar (Elevator.new 1 1) []) full_car (Call 0 5)).
  - by exists [], [].
  - reflexivity.
Defined.

Lemma queue_sorted_one_way_witness :
  monotone (Elevator.requests (Elevator.this under_way)) ∧
  ∀ sourceFloor destinationFloor c' log,
    Elevator.addRequest (Request.new sourceFloor destinationFloor) under_way
    = Some (true, c', log) →
    in_order (Elevator.direction (Elevator.this c'))
      (Elevator.requests (Elevator.this c')).
Proof.
  apply (queue_sorted_one_way 1 5 under_way). apply under_way_reachable.
Defined.

Lemma calls_refused_served_or_held_witness :
  length (submitted under_way_schedule)
  = (refusals under_way_log + dropoffs under_way_log
     + length (held under_way))%nat.
Proof.
  apply (calls_refused_served_or_held 1 5 under_way_schedule under_way
           under_way_log).
  apply under_way_run.
Defined.

Lemma drain_serves_all_and_ends_witness :
  ∃ n c' log,
    car_run (replicate n (Resume 0)) under_way = Some (c', log) ∧
    at_rest c' ∧
    dropoffs log = length (held under_way) ∧
    refusals log = 0%nat.
Proof.
  apply (drain_serves_all_and_ends 1 5 under_way_schedule under_way
           under_way_log).
  - repeat constructor; unfold exact; simpl; lia.
  - apply under_way_run.
Defined.

Lemma addRequest_accepts_while_room_witness :
  ∃ accepted c' log,
    Elevator.addRequest (Request.new 2 1) under_way
    = Some (accepted, c', log) ∧
    (accepted = true ↔ Elevator.passengers (Elevator.this under_way) < 5) ∧
    (2 ≤ 5 → accepted = true) ∧
    (accepted = true →
     Request.new 2 1 ∈ held c' ∧
     length (held c') = S (length (held under_way))).
Proof.
  apply (addRequest_accepts_while_room 1 5 under_way 2 1).
  apply under_way_reachable.
Defined.

Lemma elevator_without_capacity_stays_witness :
  Elevator.mkCar (Elevator.new 1 0) []
  = Elevator.mkCar (Elevator.new 1 0) [] ∧
  [AtCapacity 1; AtCapacity 1]
  = replicate (length [Call 0 5; Call 3 1]) (AtCapacity 1) ∧
  Forall (λ action, ∃ s d, action = Call s d) [Call 0 5; Call 3 1].
Proof.
  apply (elevator_without_capacity_stays 1 0 [Call 0 5; Call 3 1]
           (Elevator.mkCar (Elevator.new 1 0) [])
           [AtCapacity 1; AtCapacity 1]).
  - lia.
  - reflexivity.
Defined.

Lemma addRequest_with_idle_request_throws_witness :
  (Elevator.optimizeRequests_stack 100
     (Elevator.mk 1 5 0 IDLE [handmade_idle_request] 0 false true)
   = Elevator.Overflows
       (Elevator.mk 1 5 0 IDLE [handmade_idle_request] 0 false true) ∧
   Elevator.optimizeRequests_rec 100
     (Elevator.mk 1 5 0 IDLE [handmade_idle_request] 0 false true)
   = None) ∧
  (let stuck :=
     Elevator.mkCar
       (Elevator.mk 1 5 5 IDLE [handmade_idle_request] 0 false true) [] in
   Elevator.addRequest_outcome 100 handmade_idle_request
     (Elevator.mkCar (Elevator.mk 1 5 5 IDLE [] 0 false false) [])
   = Elevator.Thrown stuck ∧
   Elevator.addRequest handmade_idle_request
     (Elevator.mkCar (Elevator.mk 1 5 5 IDLE [] 0 false false) []) = None ∧
   ∀ depth' request',
     Elevator.addRequest_outcome depth' request' stuck = Elevator.Polling ∧
     Elevator.addRequest request' stuck = None).
Proof.
  destruct addRequest_with_idle_request_throws as [Hrec Hadd].
  split.
  - by apply (Hrec 100%nat _ handmade_idle_request []).
  - assert (at_rest (Elevator.mkCar (Elevator.mk 1 5 5 IDLE [] 0 false false) []))
      as Hrest by (by repeat split).
    assert (0 < 5) as Hroom by lia.
    exact (Hadd 100%nat _ handmade_idle_request Hrest Hroom eq_refl).
Defined.

Lemma handleRequest_touches_only_chosen_witness :
  length bank_0_3_7_after = length bank_0_3_7 ∧
  (∀ j, ElevatorController.findOptimalElevator bank_0_3_7 (Request.new 2 6)
        ≠ Some j →
        bank_0_3_7_after !! j = bank_0_3_7 !! j) ∧
  (∀ j c c', bank_0_3_7 !! j = Some c → bank_0_3_7_after !! j = Some c' →
             same_elevator (Elevator.this c) (Elevator.this c')).
Proof.
  apply (handleRequest_touches_only_chosen (Request.new 2 6) bank_0_3_7
           bank_0_3_7_after [Moving 2 3 2]).
  reflexivity.
Defined.

Lemma burst_goes_to_first_elevator_witness :
  ∃ c log,
    car_run (calls demo_burst) (Elevator.mkCar (Elevator.new 1 5) [])
    = Some (c, log) ∧
    system_run (submissions demo_burst) (ElevatorSystem.new 3 5)
    = Some (c :: drop 1 (ElevatorSystem.new 3 5), log).
Proof.
  apply (burst_goes_to_first_elevator 2 5 demo_burst). lia.
Defined.


Lemma optimizeRequests_twice_witness :
  Elevator.optimizeRequests
    (Elevator.mk 1 5 0 UP
       [Request.new 0 2; Request.new 0 5; Request.new 0 9] 0 false false)
  = Some (Elevator.mk 1 5 0 UP
            [Request.new 0 2; Request.new 0 5; Request.new 0 9] 0 false false).
Proof.
  apply (optimizeRequests_twice idle_with_5_2_9).
  - simpl. repeat constructor.
  - reflexivity.
Defined.
